(** * The sign-in gate of [packages/database/auth/auth-options.ts]

    A shallow embedding of the two pieces of the NextAuth configuration that
    carry logic of their own: the [signIn] callback (the invite-only gate) and
    the e-mail provider's [generateVerificationToken].

    - JavaScript values are an inductive type with [typeof] and truthiness.
    - JavaScript strings are sequences of code units; the model covers the
      code units U+0000..U+00FF, one [ascii] each, on which [toLowerCase] and
      [trim] are written out as ECMAScript defines them.
    - The asynchronous callback is a computation that takes the database it
      starts in and yields what it returns, the database it leaves and the
      effects it issued on the way (statements sent, console lines), in order.
    - The three tables are lists of rows; only the columns the callback names
      are kept.

    The other callbacks of the options follow: [session], [jwt], the WorkOS
    [profile], [sendVerificationRequest] and the two cached getters. *)

From Stdlib Require Import ZArith NArith Ascii String Lia.
From stdpp Require Import base decidable option list strings gmap.

Local Open Scope string_scope.

(** ** Strings *)

Module JsString.

(** ECMAScript [WhiteSpace] and [LineTerminator] code units below U+0100:
    TAB, LF, VT, FF, CR, SP and NBSP. *)
Definition isWhiteSpace (c : ascii) : bool :=
  let n := N_of_ascii c in
  ((9 <=? n) && (n <=? 13) || (n =? 32) || (n =? 160))%N.

(** Unicode lower-case mapping of one code unit below U+0100: A..Z, and
    the Latin-1 capitals U+00C0..U+00DE without the sign U+00D7. *)
Definition toLowerCaseUnit (c : ascii) : ascii :=
  let n := N_of_ascii c in
  if ((65 <=? n) && (n <=? 90)
      || (192 <=? n) && (n <=? 222) && negb (n =? 215))%N
  then ascii_of_N (n + 32)
  else c.

(** [String.prototype.toLowerCase]. *)
Fixpoint toLowerCase (s : string) : string :=
  match s with
  | EmptyString => EmptyString
  | String c s' => String (toLowerCaseUnit c) (toLowerCase s')
  end.

Fixpoint trimStart (s : string) : string :=
  match s with
  | EmptyString => EmptyString
  | String c s' => if isWhiteSpace c then trimStart s' else s
  end.

Fixpoint trimEnd (s : string) : string :=
  match s with
  | EmptyString => EmptyString
  | String c s' =>
      match trimEnd s' with
      | EmptyString => if isWhiteSpace c then EmptyString else String c EmptyString
      | t => String c t
      end
  end.

(** [String.prototype.trim]. *)
Definition trim (s : string) : string := trimEnd (trimStart s).

(** [String.prototype.includes]. *)
Fixpoint includes (s sub : string) : bool :=
  String.prefix sub s
  || match s with
     | EmptyString => false
     | String _ s' => includes s' sub
     end.

End JsString.

(** ** Values *)

#[local] Set Warnings "-register-all".

Inductive JsValue : Type :=
| JsUndefined
| JsNull
| JsBoolean (b : bool)
| JsNumber (n : Z) (* the callback only tests numbers for truthiness *)
| JsNaN
| JsString (s : string)
| JsObject (fields : list (string * JsValue)).

Inductive JsType : Type :=
| TUndefined | TObject | TBoolean | TNumber | TString.

#[global] Instance JsType_eq_dec : EqDecision JsType.
Proof. solve_decision. Defined.

(** The [typeof] operator ([typeof null] is ["object"]). *)
Definition typeof (v : JsValue) : JsType :=
  match v with
  | JsUndefined => TUndefined
  | JsNull => TObject
  | JsBoolean _ => TBoolean
  | JsNumber _ | JsNaN => TNumber
  | JsString _ => TString
  | JsObject _ => TObject
  end.

(** [ToBoolean]: the falsy values are [undefined], [null], [false], [0],
    [NaN] and the empty string. *)
Definition truthy (v : JsValue) : bool :=
  match v with
  | JsUndefined | JsNull | JsNaN => false
  | JsBoolean b => b
  | JsNumber n => negb (n =? 0)%Z
  | JsString s => negb (String.eqb s "")
  | JsObject _ => true
  end.

(** [a || b] yields [a] when it is truthy and [b] otherwise. *)
Definition js_or (a b : JsValue) : JsValue := if truthy a then a else b.

Fixpoint lookup_field (k : string) (fields : list (string * JsValue)) : JsValue :=
  match fields with
  | [] => JsUndefined
  | (k', v) :: rest => if String.eqb k k' then v else lookup_field k rest
  end.

(** [o?.k]: [undefined] on a nullish [o], the property otherwise (a
    primitive has no own property of the names used here). *)
Definition optional_get (o : JsValue) (k : string) : JsValue :=
  match o with
  | JsObject fields => lookup_field k fields
  | _ => JsUndefined
  end.

(** ** The database

    [../schema.ts] is imported by the callback but is not among the sources.
    The callback names three tables and, of each, the columns below; the
    identifier and e-mail columns are taken to hold strings. *)

Module users.
Record row : Type := { id : string; email : string }.
End users.

Module organizationMembers.
Record row : Type := { id : string; userId : string }.
End organizationMembers.

Module organizationInvites.
Record row : Type := { id : string; email : string }.
End organizationInvites.

Record Database : Type := {
  tbl_users : list users.row;
  tbl_organizationMembers : list organizationMembers.row;
  tbl_organizationInvites : list organizationInvites.row
}.

Inductive Table : Type := Users | OrganizationMembers | OrganizationInvites.

(** ** Effects

    What one run of a callback does to the outside: the statements it sends
    to the database and the lines it writes to the console, in order. A
    statement is of one of the four kinds of the query builder and names its
    table and the value its [where] clause compares with. *)

Inductive Statement : Type := Select | Insert | Update | Delete.

Inductive Effect : Type :=
| DbQuery (kind : Statement) (table : Table) (where_eq : string)
| ConsoleWarn (line : string).

Definition is_query (e : Effect) : bool :=
  match e with DbQuery _ _ _ => true | ConsoleWarn _ => false end.

Definition is_write (e : Effect) : bool :=
  match e with
  | DbQuery Select _ _ | ConsoleWarn _ => false
  | DbQuery _ _ _ => true
  end.

(** The database statements among the effects. *)
Definition lookups (t : list Effect) : list Effect := List.filter is_query t.

(** The console lines among the effects. *)
Fixpoint warnings (t : list Effect) : list string :=
  match t with
  | [] => []
  | ConsoleWarn line :: t' => line :: warnings t'
  | DbQuery _ _ _ :: t' => warnings t'
  end.

Record Outcome (A : Type) : Type := {
  returned : A;
  db_after : Database;
  effects : list Effect
}.
Arguments returned {A} _.
Arguments db_after {A} _.
Arguments effects {A} _.

(** An asynchronous computation: from the database it starts in to what it
    returns, the database it leaves and the effects it issued. *)
Definition Async (A : Type) : Type := Database -> Outcome A.

Definition ret {A} (a : A) : Async A :=
  fun d => {| returned := a; db_after := d; effects := [] |}.

Definition bind {A B} (m : Async A) (k : A -> Async B) : Async B :=
  fun d =>
    let r1 := m d in
    let r2 := k (returned r1) (db_after r1) in
    {| returned := returned r2;
       db_after := db_after r2;
       effects := effects r1 ++ effects r2 |}.

Notation "'await' x <- m ;; k" := (bind m (fun x => k))
  (at level 10, x binder, m at level 99, k at level 200).

(** The three queries of the callback. Each yields the projected [id]s of
    the rows whose column equals the value ([eq] compares strings exactly),
    at most one of them, and leaves the database as it is. *)

(** [db().select({ id: users.id }).from(users).where(eq(users.email, e)).limit(1)] *)
Definition select_users_by_email (e : string) : Async (list string) :=
  fun d =>
    {| returned :=
         take 1 (users.id <$> filter (fun u => users.email u = e) (tbl_users d));
       db_after := d;
       effects := [DbQuery Select Users e] |}.

(** [db().select({ id: organizationMembers.id }).from(organizationMembers)
      .where(eq(organizationMembers.userId, uid)).limit(1)] *)
Definition select_members_by_userId (uid : string) : Async (list string) :=
  fun d =>
    {| returned :=
         take 1 (organizationMembers.id <$>
                   filter (fun m => organizationMembers.userId m = uid)
                          (tbl_organizationMembers d));
       db_after := d;
       effects := [DbQuery Select OrganizationMembers uid] |}.

(** [db().select({ id: organizationInvites.id }).from(organizationInvites)
      .where(eq(organizationInvites.email, e)).limit(1)] *)
Definition select_invites_by_email (e : string) : Async (list string) :=
  fun d =>
    {| returned :=
         take 1 (organizationInvites.id <$>
                   filter (fun i => organizationInvites.email i = e)
                          (tbl_organizationInvites d));
       db_after := d;
       effects := [DbQuery Select OrganizationInvites e] |}.

Definition console_warn (line : string) : Async unit :=
  fun d => {| returned := tt; db_after := d; effects := [ConsoleWarn line] |}.

(** ** The allow-list (lines 20-24) *)

Definition INVITE_ONLY_ALLOWED_EMAILS : gset string :=
  list_to_set
    (JsString.toLowerCase <$>
       ["gustavo.toledo@gmail.com"; "johannaosoriolizarazo@gmail.com"]).

(** [Set.prototype.has]. *)
Definition Set_has (s : gset string) (x : string) : bool := bool_decide (x ∈ s).

(** ** The [signIn] callback *)

(** Step 1 of the callback (lines 130-136): the candidate e-mail. *)
Definition resolveUserEmail (user email credentials : JsValue) : JsValue :=
  js_or (optional_get user "email")
        (if decide (typeof email = TString) then email
         else if decide (typeof (optional_get credentials "email") = TString)
              then optional_get credentials "email"
              else JsNull).

Definition normalize (userEmail : string) : string :=
  JsString.trim (JsString.toLowerCase userEmail).

Definition blocked_line (normalizedEmail : string) : string :=
  "Signup blocked (invite-only): " ++ normalizedEmail.

(** Steps 2 to 5 of the callback (lines 145-175), on the normalized e-mail.
    [step4] is the code after the [if (existingUser?.id)] block, which every
    path that does not return from inside the block runs. *)
Definition invite_only_gate (normalizedEmail : string) : Async bool :=
  if Set_has INVITE_ONLY_ALLOWED_EMAILS normalizedEmail then ret true
  else
    let step4 : Async bool :=
      (await invite <- select_invites_by_email normalizedEmail ;;
       if (0 <? length invite)%nat then ret true
       else
         await _ <- console_warn (blocked_line normalizedEmail) ;;
         ret false)
    in
    await rows <- select_users_by_email normalizedEmail ;;
    match head rows with
    | Some existingUser_id =>
        if truthy (JsString existingUser_id) then
          await member <- select_members_by_userId existingUser_id ;;
          if (0 <? length member)%nat then ret true else step4
        else step4
    | None => step4
    end.

(** The callback from the guard on the candidate on (lines 139-175): the
    decision the specification calls [authorize]. The last branch of the
    [match] is excluded by the guard. *)
Definition authorize (userEmail : JsValue) : Async bool :=
  if negb (truthy userEmail) || negb (bool_decide (typeof userEmail = TString))
  then ret false
  else
    match userEmail with
    | JsString s => invite_only_gate (normalize s)
    | _ => ret false
    end.

Definition signIn (user email credentials : JsValue) : Async bool :=
  authorize (resolveUserEmail user email credentials).

(** ** The verification token (lines 77-79) *)

(** [crypto.randomInt(min, max)] on an accepted raw sample [x]: Node returns
    [x % (max - min) + min]. *)
Definition randomInt (min max : Z) (x : Z) : Z := (x mod (max - min) + min)%Z.

Definition digitChar (d : Z) : ascii := ascii_of_N (48 + Z.to_N d).

Fixpoint toDigits (fuel : nat) (n : Z) (acc : string) : string :=
  match fuel with
  | O => acc
  | S fuel' =>
      let acc' := String (digitChar (n mod 10)) acc in
      if (n / 10 =? 0)%Z then acc' else toDigits fuel' (n / 10) acc'
  end.

(** [Number.prototype.toString] on an integer (radix 10). The fuel, one more
    than the binary logarithm, is at least the number of decimal digits. *)
Definition Number_toString (n : Z) : string :=
  if (n <? 0)%Z
  then String "-" (toDigits (S (Z.to_nat (Z.log2 (- n)))) (- n) "")
  else toDigits (S (Z.to_nat (Z.log2 n))) n "".

Definition generateVerificationToken (x : Z) : string :=
  Number_toString (randomInt 100000 1000000 x).

(** ** The vocabulary of the specification *)

(** A string that is empty or starts with a character [trim] keeps. *)
Definition trimmed_start (s : string) : Prop :=
  match s with
  | EmptyString => True
  | String c _ => JsString.isWhiteSpace c = false
  end.

Definition allow_listed (e : string) : Prop := e ∈ INVITE_ONLY_ALLOWED_EMAILS.

(** The user has at least one organization-membership record. *)
Definition has_membership (d : Database) (u : users.row) : Prop :=
  ∃ m, m ∈ tbl_organizationMembers d ∧ organizationMembers.userId m = users.id u.

(** A user record with that e-mail exists and that user has at least one
    organization-membership record. *)
Definition member_user (d : Database) (e : string) : Prop :=
  ∃ u, u ∈ tbl_users d ∧ users.email u = e ∧ has_membership d u.

(** At least one pending organization invite exists for that e-mail. *)
Definition invited (d : Database) (e : string) : Prop :=
  ∃ i, i ∈ tbl_organizationInvites d ∧ organizationInvites.email i = e.

(** The data model: one user record per e-mail, and every user record
    carries an identifier (a primary key, never the empty string). *)
Definition unique_emails (d : Database) : Prop :=
  NoDup (users.email <$> tbl_users d).

Definition identified (d : Database) : Prop :=
  Forall (fun u => users.id u ≠ "") (tbl_users d).

(** What a run that returns [b] at once looks like: nothing sent, nothing
    written, the database as it was. *)
Definition immediately (b : bool) (d : Database) : Outcome bool :=
  {| returned := b; db_after := d; effects := [] |}.

(** ** Concrete databases *)

Definition emptyDb : Database :=
  {| tbl_users := []; tbl_organizationMembers := []; tbl_organizationInvites := [] |}.

(** One pending invite, sent to the empty address. *)
Definition blankInviteDb : Database :=
  {| tbl_users := [];
     tbl_organizationMembers := [];
     tbl_organizationInvites :=
       [ {| organizationInvites.id := "inv_1"; organizationInvites.email := "" |} ] |}.

(** One user registered under the empty address, member of an organization. *)
Definition blankMemberDb : Database :=
  {| tbl_users := [ {| users.id := "usr_1"; users.email := "" |} ];
     tbl_organizationMembers :=
       [ {| organizationMembers.id := "mem_1"; organizationMembers.userId := "usr_1" |} ];
     tbl_organizationInvites := [] |}.

(** One pending invite for an address outside the allow-list. *)
Definition invitedDb : Database :=
  {| tbl_users := [];
     tbl_organizationMembers := [];
     tbl_organizationInvites :=
       [ {| organizationInvites.id := "inv_1";
            organizationInvites.email := "invited@example.com" |} ] |}.

(** One user outside the allow-list, member of an organization, no invite. *)
Definition memberDb : Database :=
  {| tbl_users := [ {| users.id := "usr_1"; users.email := "member@example.com" |} ];
     tbl_organizationMembers :=
       [ {| organizationMembers.id := "mem_1"; organizationMembers.userId := "usr_1" |} ];
     tbl_organizationInvites := [] |}.

(** ** Further vocabulary for the sign-in callback *)

(** A string that is empty or ends with a character [trim] keeps. *)
Fixpoint trimmed_end (s : string) : Prop :=
  match s with
  | EmptyString => True
  | String c EmptyString => JsString.isWhiteSpace c = false
  | String _ s' => trimmed_end s'
  end.

(** * The other callbacks of the options *)

(** ** Objects and exceptions

    The callbacks below read and write properties. The module is strict
    code: reading a property of [null] or [undefined] throws a [TypeError],
    and so does writing a property of anything that is not an object. *)

Inductive Completion (A : Type) : Type :=
| Normal (a : A)
| TypeError.
Arguments Normal {A} _.
Arguments TypeError {A}.

Definition and_then {A B} (c : Completion A) (k : A -> Completion B) : Completion B :=
  match c with
  | Normal a => k a
  | TypeError => TypeError
  end.

Notation "'let*' x := c 'in' k" := (and_then c (fun x => k))
  (at level 10, x binder, c at level 200, k at level 200).

(** [o.k], for the property names of this file, none of which a primitive
    has. *)
Definition get_property (o : JsValue) (k : string) : Completion JsValue :=
  match o with
  | JsUndefined | JsNull => TypeError
  | JsObject fields => Normal (lookup_field k fields)
  | _ => Normal JsUndefined
  end.

(** Writing a property keeps an existing key in its place and adds a new key
    at the end. *)
Fixpoint set_field (k : string) (v : JsValue) (fields : list (string * JsValue))
  : list (string * JsValue) :=
  match fields with
  | [] => [(k, v)]
  | (k', v') :: rest =>
      if String.eqb k k' then (k, v) :: rest else (k', v') :: set_field k v rest
  end.

(** [o.k = v], yielding the object once written. *)
Definition set_property (o : JsValue) (k : string) (v : JsValue) : Completion JsValue :=
  match o with
  | JsObject fields => Normal (JsObject (set_field k v fields))
  | _ => TypeError
  end.

(** [a ?? b]. *)
Definition nullish_or (a b : JsValue) : JsValue :=
  match a with
  | JsUndefined | JsNull => b
  | _ => a
  end.

(** The object has a property of that name. *)
Definition has_field (k : string) (fields : list (string * JsValue)) : bool :=
  existsb (fun kv => String.eqb k (fst kv)) fields.

(** ** The [session] callback (lines 178-189)

    The callback writes into the object [session.user] and returns [session].
    Objects are values here: the user once written is put back where
    [session.user] was read. *)

(** [token && token.id && typeof token.id === "string"] *)
Definition token_has_id (token : JsValue) : bool :=
  truthy token
  && truthy (optional_get token "id")
  && bool_decide (typeof (optional_get token "id") = TString).

Definition session (token session : JsValue) : Completion JsValue :=
  let* user := get_property session "user" in
  if negb (truthy user) then Normal session
  else if token_has_id token then
    let* user := set_property user "id" (optional_get token "id") in
    let* user := set_property user "name"
                   (nullish_or (optional_get token "name") JsNull) in
    let* user := set_property user "email"
                   (nullish_or (optional_get token "email") JsNull) in
    let* user := set_property user "image"
                   (nullish_or (optional_get token "picture") JsNull) in
    set_property session "user" user
  else Normal session.

(** The user that [session] writes, from the one it finds. *)
Definition session_user (token : JsValue) (u : list (string * JsValue))
  : list (string * JsValue) :=
  set_field "image" (nullish_or (optional_get token "picture") JsNull)
    (set_field "email" (nullish_or (optional_get token "email") JsNull)
       (set_field "name" (nullish_or (optional_get token "name") JsNull)
          (set_field "id" (optional_get token "id") u))).

Definition is_object (v : JsValue) : bool :=
  match v with JsObject _ => true | _ => false end.

(** ** The WorkOS [profile] (lines 65-74)

    next-auth types the fields of the provider's profile as strings; the
    callback also provides for a missing or [null] one. A field is therefore
    a string, [null] or [undefined]; [id] and the picture are only passed
    on and may be any value. *)

Inductive StringField : Type := Absent | IsNull | Text (s : string).

Definition field_value (f : StringField) : JsValue :=
  match f with
  | Absent => JsUndefined
  | IsNull => JsNull
  | Text s => JsString s
  end.

(** [ToString], as a template literal applies it. *)
Definition field_ToString (f : StringField) : string :=
  match f with
  | Absent => "undefined"
  | IsNull => "null"
  | Text s => s
  end.

(** [f || ""] *)
Definition field_or (f : StringField) (s : string) : StringField :=
  if truthy (field_value f) then f else Text s.

(** [String.prototype.split] with a separator of one character. *)
Fixpoint String_split (sep : ascii) (s : string) : list string :=
  match s with
  | EmptyString => [EmptyString]
  | String c s' =>
      if Ascii.eqb c sep then EmptyString :: String_split sep s'
      else
        match String_split sep s' with
        | h :: t => String c h :: t
        | [] => [String c EmptyString]
        end
  end.

(** [a[0]] *)
Definition first_element (a : list string) : JsValue :=
  match a with
  | h :: _ => JsString h
  | [] => JsUndefined
  end.

Module WorkOS.
Record Profile : Type := {
  id : JsValue;
  first_name : StringField;
  last_name : StringField;
  email : StringField;
  profile_picture_url : JsValue
}.
End WorkOS.

(** [profile.email?.split("@")[0]] *)
Definition email_local_part (email : StringField) : JsValue :=
  match email with
  | Text e => first_element (String_split "@" e)
  | Absent | IsNull => JsUndefined
  end.

Definition profile_name (profile : WorkOS.Profile) : JsValue :=
  if truthy (field_value (WorkOS.first_name profile))
  then JsString (field_ToString (WorkOS.first_name profile) ++ " "
                 ++ field_ToString (field_or (WorkOS.last_name profile) ""))
  else js_or (email_local_part (WorkOS.email profile)) (WorkOS.id profile).

Definition profile (profile : WorkOS.Profile) : JsValue :=
  JsObject
    [ ("id", WorkOS.id profile);
      ("name", profile_name profile);
      ("email", field_value (WorkOS.email profile));
      ("image", WorkOS.profile_picture_url profile) ].

(** A string without the character. *)
Fixpoint free_of (c : ascii) (s : string) : Prop :=
  match s with
  | EmptyString => True
  | String c' s' => c' ≠ c ∧ free_of c s'
  end.

(** ** The [jwt] callback (lines 191-212)

    The callback reads whole rows of [users]. The columns beside [id] and
    [email] come from [../schema.ts], which is not among the sources: they
    are a parameter, giving each row its [name], [lastName] and [image].

    next-auth types [token.email] as a string, [null] or [undefined], so that
    [token.email || ""] is a string, as the [varchar] column it is compared
    with requires; [jwt] is [None] on a token outside that type. *)

Module dbUser.
Record columns : Type := {
  name : JsValue;
  lastName : JsValue;
  image : JsValue
}.
End dbUser.

Section Jwt.
Variable columns : users.row -> dbUser.columns.

(** [db().select().from(users).where(eq(users.email, e)).limit(1)] *)
Definition select_user_rows_by_email (e : string) : Async (list users.row) :=
  fun d =>
    {| returned := take 1 (filter (fun u => users.email u = e) (tbl_users d));
       db_after := d;
       effects := [DbQuery Select Users e] |}.

(** The token [jwt] returns when the user is in the database. *)
Definition token_of_row (dbUser : users.row) : JsValue :=
  JsObject
    [ ("id", JsString (users.id dbUser));
      ("name", dbUser.name (columns dbUser));
      ("lastName", dbUser.lastName (columns dbUser));
      ("email", JsString (users.email dbUser));
      ("picture", dbUser.image (columns dbUser)) ].

Definition jwt (token user : JsValue) : option (Async (Completion JsValue)) :=
  match get_property token "email" with
  | TypeError => Some (ret TypeError)
  | Normal token_email =>
      match js_or token_email (JsString "") with
      | JsString e =>
          Some (await rows <- select_user_rows_by_email e ;;
                match head rows with
                | None =>
                    if truthy user
                    then ret (set_property token "id" (optional_get user "id"))
                    else ret (Normal token)
                | Some dbUser => ret (Normal (token_of_row dbUser))
                end)
      | _ => None
      end
  end.

End Jwt.

(** The value [jwt] compares [users.email] with, [token.email || ""], when
    the token is an object or a primitive and that value is a string. *)
Definition jwt_email (token : JsValue) : option string :=
  match get_property token "email" with
  | Normal token_email =>
      match js_or token_email (JsString "") with
      | JsString e => Some e
      | _ => None
      end
  | TypeError => None
  end.

(** Columns for the examples: every user is called Ada Lovelace and has no
    picture. *)
Definition plainColumns (u : users.row) : dbUser.columns :=
  {| dbUser.name := JsString "Ada";
     dbUser.lastName := JsString "Lovelace";
     dbUser.image := JsNull |}.

(** ** The cached getters (lines 27-35 and 46-115)

    [adapter] and [providers] build their value on the first read and keep it
    in a variable of the closure. What is built ([DrizzleAdapter(db())], the
    array of providers) is an object: it is known here by the rank of its
    construction, which tells two constructions apart. *)

Record Closure : Type := {
  _adapter : option nat;
  _providers : option nat;
  constructed : nat
}.

(** The closure [authOptions()] starts with. *)
Definition authOptions : Closure :=
  {| _adapter := None; _providers := None; constructed := 0 |}.

(** [get adapter()] *)
Definition get_adapter (c : Closure) : nat * Closure :=
  match _adapter c with
  | Some a => (a, c)
  | None =>
      let a := constructed c in
      (a, {| _adapter := Some a;
             _providers := _providers c;
             constructed := S (constructed c) |})
  end.

(** [get providers()] *)
Definition get_providers (c : Closure) : nat * Closure :=
  match _providers c with
  | Some p => (p, c)
  | None =>
      let p := constructed c in
      (p, {| _adapter := _adapter c;
             _providers := Some p;
             constructed := S (constructed c) |})
  end.

Inductive Read : Type := ReadAdapter | ReadProviders.

Definition read (r : Read) (c : Closure) : nat * Closure :=
  match r with
  | ReadAdapter => get_adapter c
  | ReadProviders => get_providers c
  end.

(** A sequence of reads of the same options object: what each read yields,
    and the closure in the end. *)
Fixpoint reads (rs : list Read) (c : Closure) : list (Read * nat) * Closure :=
  match rs with
  | [] => ([], c)
  | r :: rs' =>
      let '(v, c1) := read r c in
      let '(vs, c2) := reads rs' c1 in
      ((r, v) :: vs, c2)
  end.

(** ** [sendVerificationRequest] (lines 80-110)

    The e-mail template [OTPEmail] and [sendEmail] come from files that are
    not among the sources: the template is a parameter, sending is an effect.
    [identifier] and [token] are strings, as next-auth types them. Text
    outside Latin-1 is kept as the bytes of its UTF-8 form; it is only ever
    concatenated. *)

Section Mail.
Variable Element : Type.
Variable OTPEmail : string -> string -> Element.

(** What [console.log] is given. *)
Inductive Logged : Type :=
| LogString (s : string)
| LogIdentifierToken (identifier token : string)
| LogEmail (email : Element).

Inductive Outgoing : Type :=
| ConsoleLog (l : Logged)
| SendEmail (email subject : string) (react : Element).

Definition rule : string :=
  "━━━━━━━━━━━━━━━━━━━━━━━━━━━━━━━━━━━━━━━━━━━━━━━━━━━━━━━━━━━━".

Definition newline : string := String "010" EmptyString.

Definition sendVerificationRequest (RESEND_API_KEY : JsValue) (identifier token : string)
  : list Outgoing :=
  ConsoleLog (LogString "sendVerificationRequest")
  :: if negb (truthy RESEND_API_KEY) then
       [ ConsoleLog (LogString newline);
         ConsoleLog (LogString rule);
         ConsoleLog (LogString "🔐 VERIFICATION CODE (Development Mode)");
         ConsoleLog (LogString rule);
         ConsoleLog (LogString ("📧 Email: " ++ identifier));
         ConsoleLog (LogString ("🔢 Code: " ++ token));
         ConsoleLog (LogString "⏱  Expires in: 10 minutes");
         ConsoleLog (LogString rule);
         ConsoleLog (LogString newline) ]
     else
       let email := OTPEmail token identifier in
       [ ConsoleLog (LogIdentifierToken identifier token);
         ConsoleLog (LogEmail email);
         SendEmail identifier "Your Cap Verification Code" email ].

(** The messages sent. *)
Fixpoint sent_mail (out : list Outgoing) : list (string * string * Element) :=
  match out with
  | [] => []
  | SendEmail email subject react :: out' => (email, subject, react) :: sent_mail out'
  | ConsoleLog _ :: out' => sent_mail out'
  end.

(** The console is given the string: on a line of its own text, or as a
    property of a logged object. *)
Definition shows (s : string) (o : Outgoing) : bool :=
  match o with
  | ConsoleLog (LogString line) => JsString.includes line s
  | ConsoleLog (LogIdentifierToken identifier token) =>
      String.eqb identifier s || String.eqb token s
  | ConsoleLog (LogEmail _) | SendEmail _ _ _ => false
  end.

End Mail.

#[global] Instance Read_eq_dec : EqDecision Read.
Proof. solve_decision. Defined.

(** The variable of the closure that a read goes through. *)
Definition cache_of (r : Read) (c : Closure) : option nat :=
  match r with
  | ReadAdapter => _adapter c
  | ReadProviders => _providers c
  end.

Definition filled (cache : option nat) : nat :=
  match cache with
  | Some _ => 1
  | None => 0
  end.

(** What holds of a closure, however it was read: two cached objects are
    two constructions, and nothing was constructed that is not cached. *)
Definition closure_ok (c : Closure) : Prop :=
  constructed c = (filled (_adapter c) + filled (_providers c))%nat
  ∧ (∀ a p, _adapter c = Some a → _providers c = Some p → a ≠ p)
  ∧ (∀ r v, cache_of r c = Some v → v < constructed c).

(** * Properties *)

(** ** Running the model on concrete inputs *)

Example lower_trim : normalize "  Foo@Bar.com " = "foo@bar.com".
Proof. reflexivity. Qed.

Example token_sample : generateVerificationToken 123456789 = "256789".
Proof. vm_compute. reflexivity. Qed.

Example allowed_sample :
  returned (authorize (JsString "GUSTAVO.TOLEDO@gmail.com") emptyDb) = true.
Proof. vm_compute. reflexivity. Qed.

Example blocked_sample :
  effects (authorize (JsString "random@nowhere.com") emptyDb)
  = [DbQuery Select Users "random@nowhere.com";
     DbQuery Select OrganizationInvites "random@nowhere.com";
     ConsoleWarn "Signup blocked (invite-only): random@nowhere.com"].
Proof. vm_compute. reflexivity. Qed.

(** ** Lower-casing and trimming *)

Section StringFacts.
Import JsString.

Lemma toLowerCaseUnit_idem (c : ascii) :
  toLowerCaseUnit (toLowerCaseUnit c) = toLowerCaseUnit c.
Proof. destruct c as [[] [] [] [] [] [] [] []]; reflexivity. Qed.

Lemma isWhiteSpace_toLowerCaseUnit (c : ascii) :
  isWhiteSpace (toLowerCaseUnit c) = isWhiteSpace c.
Proof. destruct c as [[] [] [] [] [] [] [] []]; reflexivity. Qed.

Lemma toLowerCase_idem (s : string) : toLowerCase (toLowerCase s) = toLowerCase s.
Proof.
  induction s as [|c s IH]; simpl; [reflexivity|].
  now rewrite toLowerCaseUnit_idem, IH.
Qed.

Lemma toLowerCase_trimStart (s : string) :
  toLowerCase (trimStart s) = trimStart (toLowerCase s).
Proof.
  induction s as [|c s IH]; simpl; [reflexivity|].
  rewrite isWhiteSpace_toLowerCaseUnit.
  destruct (isWhiteSpace c); [exact IH | reflexivity].
Qed.

Lemma toLowerCase_trimEnd (s : string) :
  toLowerCase (trimEnd s) = trimEnd (toLowerCase s).
Proof.
  induction s as [|c s IH]; simpl; [reflexivity|].
  rewrite <- IH, isWhiteSpace_toLowerCaseUnit.
  destruct (trimEnd s) as [|c' t]; simpl; [|reflexivity].
  destruct (isWhiteSpace c); reflexivity.
Qed.

Lemma trimStart_trimmed (s : string) : trimmed_start (trimStart s).
Proof.
  induction s as [|c s IH]; simpl; [exact I|].
  destruct (isWhiteSpace c) eqn:E; [exact IH | exact E].
Qed.

Lemma trimStart_fixed (s : string) : trimmed_start s -> trimStart s = s.
Proof. destruct s as [|c s]; simpl; [reflexivity|]. now intros ->. Qed.

Lemma trimEnd_trimmed (s : string) : trimmed_start s -> trimmed_start (trimEnd s).
Proof.
  destruct s as [|c s]; simpl; [exact id|]. intros E.
  destruct (trimEnd s); simpl; [rewrite E; simpl|]; exact E.
Qed.

Lemma trimEnd_idem (s : string) : trimEnd (trimEnd s) = trimEnd s.
Proof.
  induction s as [|c s IH]; simpl; [reflexivity|].
  destruct (trimEnd s) as [|c' t] eqn:E.
  - destruct (isWhiteSpace c) eqn:W; simpl; [reflexivity|]. now rewrite W.
  - change (trimEnd (String c (String c' t))) with
      (match trimEnd (String c' t) with
       | EmptyString => if isWhiteSpace c then EmptyString else String c EmptyString
       | u => String c u
       end).
    now rewrite IH.
Qed.

Lemma trim_idem (s : string) : trim (trim s) = trim s.
Proof.
  unfold trim.
  rewrite (trimStart_fixed (trimEnd (trimStart s))).
  - apply trimEnd_idem.
  - apply trimEnd_trimmed, trimStart_trimmed.
Qed.

Lemma toLowerCase_trim (s : string) : toLowerCase (trim s) = trim (toLowerCase s).
Proof. unfold trim. now rewrite toLowerCase_trimEnd, toLowerCase_trimStart. Qed.

Lemma prefix_refl (s : string) : String.prefix s s = true.
Proof.
  induction s as [|c s IH]; simpl; [reflexivity|].
  destruct (ascii_dec c c); [exact IH | congruence].
Qed.

Lemma includes_prefix (s sub : string) :
  String.prefix sub s = true -> includes s sub = true.
Proof. intros H. destruct s; unfold includes; fold includes; now rewrite H. Qed.

Lemma includes_append (pre s : string) : includes (pre ++ s) s = true.
Proof.
  induction pre as [|c pre IH]; simpl.
  - apply includes_prefix, prefix_refl.
  - rewrite IH. apply orb_true_r.
Qed.

End StringFacts.

Lemma normalize_idem (s : string) : normalize (normalize s) = normalize s.
Proof.
  unfold normalize.
  now rewrite toLowerCase_trim, toLowerCase_idem, trim_idem.
Qed.

Lemma normalize_empty : normalize "" = "".
Proof. reflexivity. Qed.

(** ** Queries *)

Section Select.
Context {A B : Type} (f : A → B) (P : A → Prop) `{!∀ x, Decision (P x)}.

Lemma select_found (l : list A) :
  (0 <? length (take 1 (f <$> filter P l)))%nat = true ↔ ∃ x, x ∈ l ∧ P x.
Proof.
  destruct (filter P l) as [|x l'] eqn:E; simpl.
  - split; [discriminate|]. intros (x & Hx & HP).
    assert (x ∈ filter P l) as Hin by (apply list_elem_of_filter; done).
    rewrite E in Hin. by apply elem_of_nil in Hin.
  - split; [intros _|done]. exists x.
    assert (x ∈ filter P l) as Hin by (rewrite E; left).
    apply list_elem_of_filter in Hin as [HP Hl]. eauto.
Qed.

Lemma select_head (l : list A) (y : B) :
  head (take 1 (f <$> filter P l)) = Some y → ∃ x, x ∈ l ∧ P x ∧ f x = y.
Proof.
  destruct (filter P l) as [|x l'] eqn:E; simpl; [discriminate|].
  intros [= <-]. exists x.
  assert (x ∈ filter P l) as Hin by (rewrite E; left).
  apply list_elem_of_filter in Hin as [HP Hl]. eauto.
Qed.

Lemma select_head_None (l : list A) :
  head (take 1 (f <$> filter P l)) = None → ∀ x, x ∈ l → ¬ P x.
Proof.
  destruct (filter P l) as [|x l'] eqn:E; simpl; [|discriminate].
  intros _ x Hx HP.
  assert (x ∈ filter P l) as Hin by (apply list_elem_of_filter; done).
  rewrite E in Hin. by apply elem_of_nil in Hin.
Qed.

End Select.

Lemma unique_emails_inj (d : Database) (u u' : users.row) :
  unique_emails d → u ∈ tbl_users d → u' ∈ tbl_users d →
  users.email u = users.email u' → u = u'.
Proof.
  unfold unique_emails. induction (tbl_users d) as [|x l IH]; simpl.
  - intros _ H. by apply elem_of_nil in H.
  - rewrite NoDup_cons. intros [Hx Hl] Hu Hu' E.
    apply elem_of_cons in Hu as [->|Hu]; apply elem_of_cons in Hu' as [->|Hu'].
    + done.
    + exfalso. apply Hx. rewrite E. apply list_elem_of_fmap. eauto.
    + exfalso. apply Hx. rewrite <- E. apply list_elem_of_fmap. eauto.
    + by apply IH.
Qed.

Lemma Set_has_spec (s : gset string) (x : string) : Set_has s x = true ↔ x ∈ s.
Proof. unfold Set_has. apply bool_decide_eq_true. Qed.

Lemma not_allow_listed_by_has (e : string) :
  Set_has INVITE_ONLY_ALLOWED_EMAILS e = false → ¬ allow_listed e.
Proof. intros H Ha. apply Set_has_spec in Ha. congruence. Qed.

Lemma not_allow_listed_empty : ¬ allow_listed "".
Proof. apply not_allow_listed_by_has. vm_compute. reflexivity. Qed.

Lemma truthy_string (s : string) : truthy (JsString s) = true ↔ s ≠ "".
Proof.
  simpl. rewrite negb_true_iff. split.
  - intros H ->. by rewrite String.eqb_refl in H.
  - intros H. by apply String.eqb_neq.
Qed.

(** ** The gate, branch by branch *)

(** One goal per path through [invite_only_gate], each with the outcome of
    the tests that lead there. *)
Ltac gate_cases n d :=
  unfold invite_only_gate, bind, ret;
  destruct (Set_has INVITE_ONLY_ALLOWED_EMAILS n) eqn:Hallow;
  [| destruct (head (returned (select_users_by_email n d)))
       as [uid|] eqn:Hrows;
     [ destruct (truthy (JsString uid)) eqn:Hid;
       [ destruct (0 <? length (returned (select_members_by_userId uid
                     (db_after (select_users_by_email n d)))))%nat eqn:Hmem |] |];
     try destruct (0 <? length (returned (select_invites_by_email n _)))%nat eqn:Hinv ];
  cbn [returned db_after effects select_users_by_email
       select_members_by_userId select_invites_by_email] in *.

Lemma gate_db_after n d : db_after (invite_only_gate n d) = d.
Proof. gate_cases n d; reflexivity. Qed.

Lemma gate_no_write n d :
  Forall (fun e => is_write e = false) (effects (invite_only_gate n d)).
Proof. gate_cases n d; repeat constructor. Qed.

Lemma gate_warnings n d :
  warnings (effects (invite_only_gate n d))
  = if returned (invite_only_gate n d) then [] else [blocked_line n].
Proof. gate_cases n d; reflexivity. Qed.

Lemma gate_true_sound n d :
  returned (invite_only_gate n d) = true →
  allow_listed n ∨ member_user d n ∨ invited d n.
Proof.
  gate_cases n d; try discriminate; intros _.
  - left. by apply Set_has_spec.
  - right; left.
    apply select_head in Hrows as (u & Hu & He & Hi).
    apply select_found in Hmem as (m & Hm & Hmu).
    exists u. split_and!; [done..|]. exists m. subst uid. done.
  - right; right. apply select_found in Hinv as (i & Hi & He). by exists i.
  - right; right. apply select_found in Hinv as (i & Hi & He). by exists i.
  - right; right. apply select_found in Hinv as (i & Hi & He). by exists i.
Qed.

Lemma gate_true_complete n d :
  unique_emails d → identified d →
  allow_listed n ∨ member_user d n ∨ invited d n →
  returned (invite_only_gate n d) = true.
Proof.
  intros Huniq Hident H.
  gate_cases n d; try reflexivity; exfalso.
  all: destruct H as [H | [H | H]];
    [ apply Set_has_spec in H; congruence | | ].
  all: try (apply not_true_iff_false in Hinv; apply Hinv, select_found, H).
  all: destruct H as (u & Hu & He & m & Hm & Hmu).
  - apply select_head in Hrows as (u' & Hu' & He' & Hi).
    assert (u' = u) as -> by (apply (unique_emails_inj d); congruence).
    subst uid.
    apply not_true_iff_false in Hmem. apply Hmem, select_found. by exists m.
  - apply select_head in Hrows as (u' & Hu' & He' & Hi).
    assert (truthy (JsString uid) = true); [|congruence].
    apply truthy_string. subst uid.
    unfold identified in Hident. rewrite Forall_forall in Hident. by apply Hident.
  - by apply (select_head_None _ _ _ Hrows u).
Qed.

(** ** The guard on the candidate *)

Lemma authorize_not_string (v : JsValue) (d : Database) :
  typeof v ≠ TString → authorize v d = immediately false d.
Proof.
  intros H. unfold authorize.
  rewrite (bool_decide_eq_false_2 _ H), orb_true_r. reflexivity.
Qed.

Lemma authorize_string (s : string) (d : Database) :
  s ≠ "" → authorize (JsString s) d = invite_only_gate (normalize s) d.
Proof.
  intros H. unfold authorize.
  apply truthy_string in H. rewrite H. reflexivity.
Qed.

Lemma normalize_nonempty (s : string) : normalize s ≠ "" → s ≠ "".
Proof. intros H ->. by apply H. Qed.

Lemma authorize_string_denies (s : string) (d : Database) :
  ¬ allow_listed (normalize s) → ¬ member_user d (normalize s) →
  ¬ invited d (normalize s) →
  returned (authorize (JsString s) d) = false.
Proof.
  intros Ha Hm Hi. apply not_true_iff_false. intros H.
  destruct (decide (s = "")) as [-> | Hs]; [discriminate|].
  rewrite authorize_string in H by done.
  apply gate_true_sound in H. tauto.
Qed.

(** * The claims *)

(** ** C1: the decision of [signIn] *)

(** C1, as written, fails on the empty candidate: the guard denies it before
    any lookup, also when an invite (or a member) is recorded under the empty
    address. *)
Lemma signIn_empty_candidate_invited :
  let credentials := JsObject [("email", JsString "")] in
  resolveUserEmail JsUndefined JsUndefined credentials = JsString ""
  ∧ ¬ (returned (signIn JsUndefined JsUndefined credentials blankInviteDb) = true ↔
         allow_listed (normalize "") ∨ member_user blankInviteDb (normalize "")
         ∨ invited blankInviteDb (normalize "")).
Proof.
  split; [reflexivity|]. intros [_ H].
  assert (returned (signIn JsUndefined JsUndefined
            (JsObject [("email", JsString "")]) blankInviteDb) = true) as E.
  { apply H. right; right. eexists. split; [left|reflexivity]. }
  vm_compute in E. discriminate.
Qed.

(** C1 (amended). When the candidate resolves to a non-empty string, and the
    database holds one user record per e-mail, each with a non-empty
    identifier, [signIn] returns [true] exactly when the normalized e-mail is
    on the allow-list, or belongs to a user with at least one membership
    record, or has at least one pending invite. When the candidate is not a
    string or is the empty string, [signIn] returns [false]. *)
Theorem signIn_decision (user email credentials : JsValue) (d : Database) :
  let v := resolveUserEmail user email credentials in
  (∀ s, v = JsString s → s ≠ "" → unique_emails d → identified d →
     (returned (signIn user email credentials d) = true ↔
        allow_listed (normalize s) ∨ member_user d (normalize s)
        ∨ invited d (normalize s)))
  ∧ (typeof v ≠ TString ∨ v = JsString "" →
     returned (signIn user email credentials d) = false).
Proof.
  intros v. unfold signIn. fold v. split.
  - intros s -> Hs Hu Hi. rewrite authorize_string by done. split.
    + apply gate_true_sound.
    + by apply gate_true_complete.
  - intros [H | ->]; [by rewrite authorize_not_string | reflexivity].
Qed.

Lemma signIn_decision_witness :
  let user := JsObject [("email", JsString " Member@Example.com ")] in
  (resolveUserEmail user JsUndefined JsUndefined = JsString " Member@Example.com "
   ∧ " Member@Example.com " ≠ ""
   ∧ unique_emails memberDb ∧ identified memberDb
   ∧ (returned (signIn user JsUndefined JsUndefined memberDb) = true ↔
        allow_listed "member@example.com" ∨ member_user memberDb "member@example.com"
        ∨ invited memberDb "member@example.com"))
  ∧ (typeof (resolveUserEmail JsUndefined JsNull JsUndefined) ≠ TString
     ∧ returned (signIn JsUndefined JsNull JsUndefined memberDb) = false).
Proof.
  assert (unique_emails memberDb) as Hu by (apply NoDup_singleton).
  assert (identified memberDb) as Hi by (repeat constructor; discriminate).
  split.
  - split_and!; [reflexivity | discriminate | exact Hu | exact Hi |].
    exact (proj1 (signIn_decision
                    (JsObject [("email", JsString " Member@Example.com ")])
                    JsUndefined JsUndefined memberDb)
                 " Member@Example.com " eq_refl ltac:(discriminate) Hu Hi).
  - split; [discriminate|].
    apply (proj2 (signIn_decision JsUndefined JsNull JsUndefined memberDb)).
    left. discriminate.
Defined.

(** ** C2: the allow-list *)

(** C2. An e-mail whose normalized form is on the allow-list is admitted
    without any effect: no statement is sent to the database. So it is for
    ["GUSTAVO.TOLEDO@gmail.com"], which normalizes to
    ["gustavo.toledo@gmail.com"], a member of the allow-list. *)
Theorem allow_listed_bypass :
  (∀ (s : string) (d : Database),
     allow_listed (normalize s) →
     returned (authorize (JsString s) d) = true
     ∧ lookups (effects (authorize (JsString s) d)) = []
     ∧ effects (authorize (JsString s) d) = [])
  ∧ normalize "GUSTAVO.TOLEDO@gmail.com" = "gustavo.toledo@gmail.com"
  ∧ allow_listed "gustavo.toledo@gmail.com"
  ∧ (∀ d, authorize (JsString "GUSTAVO.TOLEDO@gmail.com") d = immediately true d).
Proof.
  split_and!; [|reflexivity| |reflexivity].
  - intros s d H.
    assert (s ≠ "") as Hs by (intros ->; by apply not_allow_listed_empty).
    rewrite authorize_string by done.
    unfold invite_only_gate. apply Set_has_spec in H. rewrite H. done.
  - apply Set_has_spec. vm_compute. reflexivity.
Qed.

Lemma allow_listed_bypass_witness :
  allow_listed (normalize " JohannaOsorioLizarazo@Gmail.com")
  ∧ returned (authorize (JsString " JohannaOsorioLizarazo@Gmail.com") memberDb) = true
  ∧ lookups (effects (authorize (JsString " JohannaOsorioLizarazo@Gmail.com") memberDb)) = []
  ∧ effects (authorize (JsString " JohannaOsorioLizarazo@Gmail.com") memberDb) = [].
Proof.
  assert (allow_listed (normalize " JohannaOsorioLizarazo@Gmail.com")) as H.
  { apply Set_has_spec. vm_compute. reflexivity. }
  split; [exact H|].
  exact (proj1 allow_listed_bypass " JohannaOsorioLizarazo@Gmail.com" memberDb H).
Defined.

(** ** C3: normalization *)

(** C3, as written, fails on an input of white space only: it is looked up
    under the empty address, which the guard denies without lookup when it is
    given as such. *)
Lemma authorize_blank_not_normalized :
  normalize " " = ""
  ∧ returned (authorize (JsString " ") blankInviteDb)
    ≠ returned (authorize (JsString (normalize " ")) blankInviteDb).
Proof. split; [reflexivity|]. vm_compute. discriminate. Qed.

(** C3 (amended). For every input string that is empty or whose normalized
    form is not empty, and every database, [authorize] does on the input what
    it does on its normalized form: the same decision, the same lookups, the
    same console lines. So ["Foo@Bar.com "] and ["foo@bar.com"] are treated
    alike. *)
Theorem authorize_normalized :
  (∀ (s : string) (d : Database),
     s = "" ∨ normalize s ≠ "" →
     authorize (JsString s) d = authorize (JsString (normalize s)) d)
  ∧ (∀ d, authorize (JsString "Foo@Bar.com ") d = authorize (JsString "foo@bar.com") d).
Proof.
  assert (∀ (s : string) (d : Database),
            s = "" ∨ normalize s ≠ "" →
            authorize (JsString s) d = authorize (JsString (normalize s)) d) as H.
  { intros s d [-> | H]; [reflexivity|].
    rewrite (authorize_string s), (authorize_string (normalize s)), normalize_idem;
      [reflexivity | done | by apply normalize_nonempty]. }
  split; [exact H|].
  intros d. apply (H "Foo@Bar.com " d). right. discriminate.
Qed.

Lemma authorize_normalized_witness :
  ("  Member@EXAMPLE.com " = "" ∨ normalize "  Member@EXAMPLE.com " ≠ "")
  ∧ authorize (JsString "  Member@EXAMPLE.com ") memberDb
    = authorize (JsString "member@example.com") memberDb.
Proof.
  assert ("  Member@EXAMPLE.com " = "" ∨ normalize "  Member@EXAMPLE.com " ≠ "") as H
    by (right; discriminate).
  split; [exact H|].
  exact (proj1 authorize_normalized "  Member@EXAMPLE.com " memberDb H).
Defined.

(** ** C4: who is denied *)

(** C4, as written, fails on an e-mail outside the allow-list that has a
    pending invite: it is admitted. *)
Lemma authorize_invited_outsider :
  ¬ allow_listed (normalize "invited@example.com")
  ∧ returned (authorize (JsString "invited@example.com") invitedDb) ≠ false.
Proof.
  split; [apply not_allow_listed_by_has; vm_compute; reflexivity|].
  vm_compute. discriminate.
Qed.

(** C4 (amended). [authorize] returns [false] for every input that is absent
    or not a string, and for every e-mail whose normalized form is not on the
    allow-list, belongs to no user with a membership record and has no
    pending invite. *)
Theorem authorize_denies (v : JsValue) (d : Database) :
  (typeof v ≠ TString → returned (authorize v d) = false)
  ∧ (∀ s, v = JsString s →
       ¬ allow_listed (normalize s) → ¬ member_user d (normalize s) →
       ¬ invited d (normalize s) →
       returned (authorize v d) = false).
Proof.
  split.
  - intros H. by rewrite authorize_not_string.
  - intros s -> Ha Hm Hi. by apply authorize_string_denies.
Qed.

Lemma authorize_denies_witness :
  (typeof JsUndefined ≠ TString
   ∧ returned (authorize JsUndefined invitedDb) = false)
  ∧ (¬ allow_listed (normalize "Random@Nowhere.com")
     ∧ ¬ member_user invitedDb (normalize "Random@Nowhere.com")
     ∧ ¬ invited invitedDb (normalize "Random@Nowhere.com")
     ∧ returned (authorize (JsString "Random@Nowhere.com") invitedDb) = false).
Proof.
  assert (¬ allow_listed (normalize "Random@Nowhere.com")) as Ha.
  { apply not_allow_listed_by_has. vm_compute. reflexivity. }
  assert (¬ member_user invitedDb (normalize "Random@Nowhere.com")) as Hm.
  { intros (u & Hu & _). simpl in Hu. by apply elem_of_nil in Hu. }
  assert (¬ invited invitedDb (normalize "Random@Nowhere.com")) as Hi.
  { intros (i & Hi & He). simpl in Hi. apply list_elem_of_singleton in Hi as ->.
    discriminate. }
  split.
  - split; [discriminate|].
    apply (proj1 (authorize_denies JsUndefined invitedDb)). discriminate.
  - split_and!; [exact Ha | exact Hm | exact Hi |].
    exact (proj2 (authorize_denies (JsString "Random@Nowhere.com") invitedDb)
                 "Random@Nowhere.com" eq_refl Ha Hm Hi).
Defined.

(** ** C5: members *)

(** C5, as written, fails on the empty candidate: a member registered under
    the empty address is denied by the guard. *)
Lemma authorize_empty_member_denied :
  member_user blankMemberDb (normalize "")
  ∧ returned (authorize (JsString "") blankMemberDb) ≠ true.
Proof.
  split; [|vm_compute; discriminate].
  eexists. split; [left|]. split; [reflexivity|].
  eexists. split; [left|reflexivity].
Qed.

(** C5 (amended). For every non-empty e-mail and every database that holds
    one user record per e-mail, each with a non-empty identifier: when a user
    record exists for the normalized e-mail and that user has at least one
    membership record, [authorize] returns [true], whether or not an invite
    exists. *)
Theorem member_admitted (s : string) (d : Database) :
  s ≠ "" → unique_emails d → identified d →
  member_user d (normalize s) →
  returned (authorize (JsString s) d) = true.
Proof.
  intros Hs Hu Hi Hm. rewrite authorize_string by done.
  apply gate_true_complete; auto.
Qed.

Lemma member_admitted_witness :
  "Member@Example.com" ≠ ""
  ∧ unique_emails memberDb ∧ identified memberDb
  ∧ member_user memberDb (normalize "Member@Example.com")
  ∧ ¬ invited memberDb (normalize "Member@Example.com")
  ∧ returned (authorize (JsString "Member@Example.com") memberDb) = true.
Proof.
  assert (unique_emails memberDb) as Hu by (apply NoDup_singleton).
  assert (identified memberDb) as Hi by (repeat constructor; discriminate).
  assert (member_user memberDb (normalize "Member@Example.com")) as Hm.
  { eexists. split; [left|]. split; [reflexivity|].
    eexists. split; [left|reflexivity]. }
  split_and!; [discriminate | exact Hu | exact Hi | exact Hm | |].
  - intros (i & Hin & _). simpl in Hin. by apply elem_of_nil in Hin.
  - exact (member_admitted "Member@Example.com" memberDb
             ltac:(discriminate) Hu Hi Hm).
Defined.

(** ** C6: no candidate *)

(** C6. When the candidate is absent ([null], [undefined]) or not a string,
    [authorize] returns [false] at once: no statement is sent to the
    database, nothing is written. *)
Theorem authorize_absent (v : JsValue) (d : Database) :
  typeof v ≠ TString →
  returned (authorize v d) = false
  ∧ lookups (effects (authorize v d)) = []
  ∧ effects (authorize v d) = [].
Proof. intros H. by rewrite authorize_not_string. Qed.

Lemma authorize_absent_witness :
  typeof JsNull ≠ TString
  ∧ returned (authorize JsNull memberDb) = false
  ∧ lookups (effects (authorize JsNull memberDb)) = []
  ∧ effects (authorize JsNull memberDb) = [].
Proof.
  assert (typeof JsNull ≠ TString) as H by discriminate.
  split; [exact H|]. exact (authorize_absent JsNull memberDb H).
Defined.

(** ** C7: the audit line *)

(** C7. For a candidate that passed the guard: whenever [authorize] denies,
    it writes exactly one console line, and that line contains the normalized
    e-mail; and it does deny when the normalized e-mail is not on the
    allow-list, belongs to no member and has no invite. So
    ["random@nowhere.com"], with no matching user and no invite, is denied
    with one line naming it. *)
Theorem blocked_is_logged (s : string) (d : Database) :
  s ≠ "" →
  (returned (authorize (JsString s) d) = false →
     warnings (effects (authorize (JsString s) d)) = [blocked_line (normalize s)]
     ∧ JsString.includes (blocked_line (normalize s)) (normalize s) = true)
  ∧ (¬ allow_listed (normalize s) → ¬ member_user d (normalize s) →
     ¬ invited d (normalize s) →
     returned (authorize (JsString s) d) = false).
Proof.
  intros Hs. split.
  - intros E. split; [|apply includes_append].
    rewrite authorize_string in * by done.
    by rewrite gate_warnings, E.
  - apply authorize_string_denies.
Qed.

Lemma blocked_is_logged_witness :
  "random@nowhere.com" ≠ ""
  ∧ ¬ allow_listed (normalize "random@nowhere.com")
  ∧ ¬ member_user emptyDb (normalize "random@nowhere.com")
  ∧ ¬ invited emptyDb (normalize "random@nowhere.com")
  ∧ returned (authorize (JsString "random@nowhere.com") emptyDb) = false
  ∧ warnings (effects (authorize (JsString "random@nowhere.com") emptyDb))
    = ["Signup blocked (invite-only): random@nowhere.com"]
  ∧ JsString.includes "Signup blocked (invite-only): random@nowhere.com"
      "random@nowhere.com" = true.
Proof.
  assert (¬ allow_listed (normalize "random@nowhere.com")) as Ha.
  { apply not_allow_listed_by_has. vm_compute. reflexivity. }
  assert (¬ member_user emptyDb (normalize "random@nowhere.com")) as Hm.
  { intros (u & Hu & _). simpl in Hu. by apply elem_of_nil in Hu. }
  assert (¬ invited emptyDb (normalize "random@nowhere.com")) as Hi.
  { intros (i & Hi & _). simpl in Hi. by apply elem_of_nil in Hi. }
  destruct (blocked_is_logged "random@nowhere.com" emptyDb ltac:(discriminate))
    as [Hlog Hdeny].
  pose proof (Hdeny Ha Hm Hi) as E.
  destruct (Hlog E) as [Hline Hin].
  split_and!; [discriminate | exact Ha | exact Hm | exact Hi
              | exact E | exact Hline | exact Hin].
Defined.

(** ** C8: nothing is written *)

(** C8. For every input and every database, [signIn] leaves the database as
    it found it, and every statement it sends is a [Select]. *)
Theorem signIn_read_only (user email credentials : JsValue) (d : Database) :
  db_after (signIn user email credentials d) = d
  ∧ Forall (fun e => is_write e = false) (effects (signIn user email credentials d)).
Proof.
  unfold signIn. generalize (resolveUserEmail user email credentials). intros v.
  destruct (decide (typeof v = TString)) as [H | H].
  - destruct v; try discriminate.
    destruct (decide (s = "")) as [-> | Hs]; [by split; [|constructor]|].
    rewrite authorize_string by done. split; [apply gate_db_after | apply gate_no_write].
  - rewrite authorize_not_string by done. by split; [|constructor].
Qed.

(** ** C9: the verification token *)

Section Token.
Local Open Scope Z_scope.

Lemma randomInt_range (min max x : Z) :
  min < max → min ≤ randomInt min max x < max.
Proof.
  intros H. unfold randomInt.
  pose proof (Z.mod_pos_bound x (max - min)). lia.
Qed.

(** Every integer of the range is drawn by some sample. *)
Lemma randomInt_onto (min max n : Z) :
  min ≤ n < max → randomInt min max (n - min) = n.
Proof. intros H. unfold randomInt. rewrite Z.mod_small; lia. Qed.

Lemma digitChar_leading (d : Z) : 1 ≤ d ≤ 9 → digitChar d ≠ "0"%char.
Proof.
  intros H.
  assert (d = 1 ∨ d = 2 ∨ d = 3 ∨ d = 4 ∨ d = 5 ∨ d = 6 ∨ d = 7 ∨ d = 8 ∨ d = 9)
    as Hd by lia.
  repeat destruct Hd as [-> | Hd]; try subst d; discriminate.
Qed.

Lemma toDigits_six (fuel : nat) (n : Z) (acc : string) :
  (6 ≤ fuel)%nat → 100000 ≤ n ≤ 999999 →
  ∃ d5 d4 d3 d2 d1 d0 : Z,
    1 ≤ d5 ≤ 9 ∧ 0 ≤ d4 ≤ 9 ∧ 0 ≤ d3 ≤ 9 ∧ 0 ≤ d2 ≤ 9 ∧ 0 ≤ d1 ≤ 9 ∧ 0 ≤ d0 ≤ 9
    ∧ n = d5 * 100000 + d4 * 10000 + d3 * 1000 + d2 * 100 + d1 * 10 + d0
    ∧ toDigits fuel n acc
      = String (digitChar d5) (String (digitChar d4) (String (digitChar d3)
          (String (digitChar d2) (String (digitChar d1)
             (String (digitChar d0) acc))))).
Proof.
  intros Hfuel Hn.
  exists (n / 10 / 10 / 10 / 10 / 10 mod 10), (n / 10 / 10 / 10 / 10 mod 10),
    (n / 10 / 10 / 10 mod 10), (n / 10 / 10 mod 10), (n / 10 mod 10), (n mod 10).
  split_and!; try (Z.div_mod_to_equations; lia).
  do 6 (destruct fuel as [|fuel]; [lia|]).
  cbn [toDigits].
  repeat match goal with
         | |- context [?q =? 0] =>
             destruct (Z.eqb_spec q 0); [try (exfalso; Z.div_mod_to_equations; lia)|]
         end.
  all: try reflexivity.
  exfalso. Z.div_mod_to_equations. lia.
Qed.

(** C9. Whatever the sample, the token is the decimal string of an integer
    between 100000 and 999999: six decimal digits, the first of them not
    zero. *)
Theorem generateVerificationToken_six_digits (x : Z) :
  ∃ n d5 d4 d3 d2 d1 d0 : Z,
    100000 ≤ n ≤ 999999
    ∧ generateVerificationToken x = Number_toString n
    ∧ 1 ≤ d5 ≤ 9 ∧ 0 ≤ d4 ≤ 9 ∧ 0 ≤ d3 ≤ 9 ∧ 0 ≤ d2 ≤ 9 ∧ 0 ≤ d1 ≤ 9 ∧ 0 ≤ d0 ≤ 9
    ∧ n = d5 * 100000 + d4 * 10000 + d3 * 1000 + d2 * 100 + d1 * 10 + d0
    ∧ generateVerificationToken x
      = String (digitChar d5) (String (digitChar d4) (String (digitChar d3)
          (String (digitChar d2) (String (digitChar d1)
             (String (digitChar d0) EmptyString)))))
    ∧ digitChar d5 ≠ "0"%char
    ∧ String.length (generateVerificationToken x) = 6%nat.
Proof.
  unfold generateVerificationToken.
  pose proof (randomInt_range 100000 1000000 x ltac:(lia)) as Hn.
  set (n := randomInt 100000 1000000 x) in *.
  assert (16 ≤ Z.log2 n) as Hlog by (apply Z.log2_le_pow2; lia).
  destruct (toDigits_six (S (Z.to_nat (Z.log2 n))) n EmptyString)
    as (d5 & d4 & d3 & d2 & d1 & d0 & H5 & H4 & H3 & H2 & H1 & H0 & Hsum & Hs);
    [lia | lia |].
  assert (Number_toString n = toDigits (S (Z.to_nat (Z.log2 n))) n EmptyString) as E.
  { unfold Number_toString. destruct (Z.ltb_spec n 0); [lia | reflexivity]. }
  exists n, d5, d4, d3, d2, d1, d0.
  rewrite E, Hs. split_and!; try done; try lia.
  by apply digitChar_leading.
Qed.

End Token.

(** ** C10: where the candidate comes from *)

(** C10. The candidate is [user.email] when that is truthy; otherwise the
    [email] argument when it is a string; otherwise [credentials.email] when
    it is a string; otherwise [null], on which [signIn] returns [false] at
    once. A [user.email] that is the empty string is passed over like an
    absent one. *)
Theorem resolveUserEmail_precedence (user email credentials : JsValue) :
  let fromUser := optional_get user "email" in
  let fromCredentials := optional_get credentials "email" in
  (truthy fromUser = true →
     resolveUserEmail user email credentials = fromUser)
  ∧ (truthy fromUser = false → typeof email = TString →
     resolveUserEmail user email credentials = email)
  ∧ (truthy fromUser = false → typeof email ≠ TString →
     typeof fromCredentials = TString →
     resolveUserEmail user email credentials = fromCredentials)
  ∧ (truthy fromUser = false → typeof email ≠ TString →
     typeof fromCredentials ≠ TString →
     resolveUserEmail user email credentials = JsNull
     ∧ ∀ d, signIn user email credentials d = immediately false d)
  ∧ (fromUser = JsString "" →
     resolveUserEmail user email credentials
     = resolveUserEmail JsUndefined email credentials).
Proof.
  intros fromUser fromCredentials.
  unfold signIn, resolveUserEmail, js_or. fold fromUser fromCredentials.
  split_and!.
  - by intros ->.
  - intros -> H. by rewrite decide_True.
  - intros -> H1 H2. by rewrite decide_False, decide_True.
  - intros -> H1 H2. rewrite !decide_False by done. by split.
  - intros ->. reflexivity.
Qed.

Lemma resolveUserEmail_precedence_witness :
  let withEmail := fun s => JsObject [("email", JsString s)] in
  let request := JsObject [("verificationRequest", JsBoolean true)] in
  resolveUserEmail (withEmail "a@user.com") (JsString "b@arg.com") (withEmail "c@cred.com")
    = JsString "a@user.com"
  ∧ resolveUserEmail (withEmail "") (JsString "b@arg.com") (withEmail "c@cred.com")
    = JsString "b@arg.com"
  ∧ resolveUserEmail (withEmail "") request (withEmail "c@cred.com")
    = JsString "c@cred.com"
  ∧ (resolveUserEmail (withEmail "") request JsUndefined = JsNull
     ∧ ∀ d, signIn (withEmail "") request JsUndefined d = immediately false d)
  ∧ resolveUserEmail (withEmail "") request (withEmail "c@cred.com")
    = resolveUserEmail JsUndefined request (withEmail "c@cred.com").
Proof.
  intros withEmail request.
  destruct (resolveUserEmail_precedence
              (withEmail "a@user.com") (JsString "b@arg.com") (withEmail "c@cred.com"))
    as (Huser & _).
  destruct (resolveUserEmail_precedence
              (withEmail "") (JsString "b@arg.com") (withEmail "c@cred.com"))
    as (_ & Harg & _).
  destruct (resolveUserEmail_precedence (withEmail "") request (withEmail "c@cred.com"))
    as (_ & _ & Hcred & _ & Hempty).
  destruct (resolveUserEmail_precedence (withEmail "") request JsUndefined)
    as (_ & _ & _ & Hnull & _).
  split_and!.
  - apply Huser. reflexivity.
  - apply Harg; reflexivity.
  - apply Hcred; [reflexivity | discriminate | reflexivity].
  - apply Hnull; [reflexivity | discriminate | discriminate].
  - apply Hnull; [reflexivity | discriminate | discriminate].
  - apply Hempty. reflexivity.
Defined.

(** * Further properties *)

(** ** The sign-in callback (lines 128-176) *)

Lemma trimEnd_trimmed_end (s : string) : trimmed_end (JsString.trimEnd s).
Proof.
  induction s as [|c s IH]; simpl; [exact I|].
  destruct (JsString.trimEnd s) as [|c' t] eqn:E.
  - destruct (JsString.isWhiteSpace c) eqn:W; simpl; [exact I | exact W].
  - exact IH.
Qed.

(** The normalized e-mail is a canonical key: normalizing it again changes
    nothing, lower-casing it changes nothing, and it neither starts nor ends
    with white space. *)
Theorem normalize_canonical (s : string) :
  normalize (normalize s) = normalize s
  ∧ JsString.toLowerCase (normalize s) = normalize s
  ∧ JsString.trim (normalize s) = normalize s
  ∧ trimmed_start (normalize s)
  ∧ trimmed_end (normalize s).
Proof.
  split_and!.
  - apply normalize_idem.
  - unfold normalize. by rewrite toLowerCase_trim, toLowerCase_idem.
  - unfold normalize. apply trim_idem.
  - unfold normalize, JsString.trim. apply trimEnd_trimmed, trimStart_trimmed.
  - unfold normalize, JsString.trim. apply trimEnd_trimmed_end.
Qed.

(** Two candidates that pass the guard and have the same normalized form are
    treated alike: the same decision, the same statements, the same console
    lines. *)
Theorem authorize_same_normal_form (a b : string) (d : Database) :
  a ≠ "" → b ≠ "" → normalize a = normalize b →
  authorize (JsString a) d = authorize (JsString b) d.
Proof.
  intros Ha Hb E. rewrite !authorize_string by done. by rewrite E.
Qed.

Lemma authorize_same_normal_form_witness :
  "Foo@Bar.com " ≠ "" ∧ " FOO@bar.COM" ≠ ""
  ∧ normalize "Foo@Bar.com " = normalize " FOO@bar.COM"
  ∧ authorize (JsString "Foo@Bar.com ") invitedDb
    = authorize (JsString " FOO@bar.COM") invitedDb.
Proof.
  split_and!; [discriminate | discriminate | reflexivity |].
  exact (authorize_same_normal_form "Foo@Bar.com " " FOO@bar.COM" invitedDb
           ltac:(discriminate) ltac:(discriminate) eq_refl).
Defined.

(** A pending invite is enough: a candidate that passed the guard and whose
    normalized e-mail has an invite is admitted, whatever the users and
    memberships tables hold. *)
Theorem invited_admitted (s : string) (d : Database) :
  s ≠ "" → invited d (normalize s) →
  returned (authorize (JsString s) d) = true.
Proof.
  intros Hs Hi. rewrite authorize_string by done.
  set (n := normalize s) in *.
  gate_cases n d; try reflexivity; exfalso.
  all: apply not_true_iff_false in Hinv; apply Hinv, select_found, Hi.
Qed.

Lemma invited_admitted_witness :
  " Invited@Example.com" ≠ ""
  ∧ invited invitedDb (normalize " Invited@Example.com")
  ∧ returned (authorize (JsString " Invited@Example.com") invitedDb) = true.
Proof.
  assert (invited invitedDb (normalize " Invited@Example.com")) as Hi.
  { eexists. split; [left|reflexivity]. }
  split_and!; [discriminate | exact Hi |].
  exact (invited_admitted " Invited@Example.com" invitedDb ltac:(discriminate) Hi).
Defined.

Lemma gate_lookups n d :
  lookups (effects (invite_only_gate n d)) = []
  ∨ head (lookups (effects (invite_only_gate n d))) = Some (DbQuery Select Users n)
    ∧ (∃ uid,
         lookups (effects (invite_only_gate n d))
         = [DbQuery Select Users n; DbQuery Select OrganizationMembers uid]
         ∧ returned (invite_only_gate n d) = true
       ∨ lookups (effects (invite_only_gate n d))
         = [DbQuery Select Users n; DbQuery Select OrganizationMembers uid;
            DbQuery Select OrganizationInvites n]
       ∨ lookups (effects (invite_only_gate n d))
         = [DbQuery Select Users n; DbQuery Select OrganizationInvites n]).
Proof.
  gate_cases n d; [by left|right; split; [reflexivity|]..].
  - exists uid. by left.
  - exists uid. right; by left.
  - exists uid. right; by left.
  - exists uid. right; by right.
  - exists uid. right; by right.
  - exists "". right; by right.
  - exists "". right; by right.
Qed.

(** One call sends no statement at all, or two, or three, never one and never
    more. When it sends any, the first is the user lookup by the normalized
    e-mail; a membership lookup follows only a user lookup; and the invite
    lookup, when sent, is the last. A call that stops after the membership
    lookup admits. *)
Theorem authorize_statements (v : JsValue) (d : Database) :
  let sent := lookups (effects (authorize v d)) in
  sent = []
  ∨ ∃ s uid,
      v = JsString s
      ∧ (sent = [DbQuery Select Users (normalize s);
                 DbQuery Select OrganizationMembers uid]
         ∧ returned (authorize v d) = true
         ∨ sent = [DbQuery Select Users (normalize s);
                   DbQuery Select OrganizationMembers uid;
                   DbQuery Select OrganizationInvites (normalize s)]
         ∨ sent = [DbQuery Select Users (normalize s);
                   DbQuery Select OrganizationInvites (normalize s)]).
Proof.
  intros sent. subst sent.
  destruct (decide (typeof v = TString)) as [H | H].
  - destruct v; try discriminate.
    destruct (decide (s = "")) as [-> | Hs]; [by left|].
    rewrite authorize_string by done.
    destruct (gate_lookups (normalize s) d) as [E | [_ (uid & E)]]; [by left|].
    right. exists s, uid. split; [reflexivity | exact E].
  - rewrite authorize_not_string by done. by left.
Qed.

(** The callback writes at most one console line, and only when it denies a
    candidate that passed the guard: an admitted sign-in, and one denied by
    the guard, leave the console alone. *)
Theorem authorize_console (v : JsValue) (d : Database) :
  warnings (effects (authorize v d)) = []
  ∨ ∃ s, v = JsString s ∧ s ≠ ""
         ∧ returned (authorize v d) = false
         ∧ warnings (effects (authorize v d)) = [blocked_line (normalize s)].
Proof.
  destruct (decide (typeof v = TString)) as [H | H].
  - destruct v; try discriminate.
    destruct (decide (s = "")) as [-> | Hs]; [by left|].
    rewrite authorize_string by done. rewrite gate_warnings.
    destruct (returned (invite_only_gate (normalize s) d)) eqn:E; [by left|].
    right. by exists s.
  - rewrite authorize_not_string by done. by left.
Qed.

(** ** The verification token (lines 77-79) *)

Section TokenSpace.
Local Open Scope Z_scope.

Lemma digitChar_inj (a b : Z) :
  0 ≤ a ≤ 9 → 0 ≤ b ≤ 9 → digitChar a = digitChar b → a = b.
Proof.
  intros Ha Hb E. unfold digitChar in E.
  apply (f_equal N_of_ascii) in E.
  rewrite !N_ascii_embedding in E by lia. lia.
Qed.

Lemma Number_toString_inj (n m : Z) :
  100000 ≤ n ≤ 999999 → 100000 ≤ m ≤ 999999 →
  Number_toString n = Number_toString m → n = m.
Proof.
  intros Hn Hm.
  assert (∀ k, 100000 ≤ k ≤ 999999 →
            Number_toString k = toDigits (S (Z.to_nat (Z.log2 k))) k EmptyString) as E.
  { intros k Hk. unfold Number_toString. destruct (Z.ltb_spec k 0); [lia | reflexivity]. }
  assert (∀ k, 100000 ≤ k ≤ 999999 → (6 ≤ S (Z.to_nat (Z.log2 k)))%nat) as F.
  { intros k Hk. assert (16 ≤ Z.log2 k) by (apply Z.log2_le_pow2; lia). lia. }
  rewrite (E n Hn), (E m Hm).
  destruct (toDigits_six _ n EmptyString (F n Hn) Hn)
    as (a5 & a4 & a3 & a2 & a1 & a0 & ? & ? & ? & ? & ? & ? & -> & ->).
  destruct (toDigits_six _ m EmptyString (F m Hm) Hm)
    as (b5 & b4 & b3 & b2 & b1 & b0 & ? & ? & ? & ? & ? & ? & -> & ->).
  intros [= E5 E4 E3 E2 E1 E0].
  apply digitChar_inj in E5, E4, E3, E2, E1, E0; try lia.
Qed.

(** Two samples give the same token exactly when they agree modulo 900000,
    and every integer from 100000 to 999999 is the token of some sample: there
    are 900000 tokens, and printing never merges two of them. *)
Theorem token_space :
  (∀ x y : Z,
     generateVerificationToken x = generateVerificationToken y
     ↔ x mod 900000 = y mod 900000)
  ∧ (∀ n : Z, 100000 ≤ n ≤ 999999 →
       ∃ x, 0 ≤ x < 900000 ∧ generateVerificationToken x = Number_toString n).
Proof.
  split.
  - intros x y. unfold generateVerificationToken. split.
    + intros E. apply Number_toString_inj in E.
      * unfold randomInt in E. change (1000000 - 100000) with 900000 in E. lia.
      * pose proof (randomInt_range 100000 1000000 x). lia.
      * pose proof (randomInt_range 100000 1000000 y). lia.
    + intros E. unfold randomInt. change (1000000 - 100000) with 900000.
      by rewrite E.
  - intros n Hn. exists (n - 100000). split; [lia|].
    unfold generateVerificationToken. rewrite randomInt_onto by lia. reflexivity.
Qed.

Lemma token_space_witness :
  100000 ≤ 424242 ≤ 999999
  ∧ ∃ x, 0 ≤ x < 900000 ∧ generateVerificationToken x = Number_toString 424242.
Proof.
  assert (100000 ≤ 424242 ≤ 999999) as H by lia.
  split; [exact H|]. exact (proj2 token_space 424242 H).
Defined.

End TokenSpace.

(** ** Objects *)

Lemma lookup_set_field_eq k v f : lookup_field k (set_field k v f) = v.
Proof.
  induction f as [|[k' v'] f IH]; simpl.
  - by rewrite String.eqb_refl.
  - destruct (String.eqb k k') eqn:E; simpl; [by rewrite String.eqb_refl|].
    by rewrite E.
Qed.

Lemma lookup_set_field_ne k k' v f :
  k ≠ k' → lookup_field k (set_field k' v f) = lookup_field k f.
Proof.
  intros Hne. induction f as [|[k2 v2] f IH]; simpl.
  - by apply String.eqb_neq in Hne as ->.
  - destruct (String.eqb k' k2) eqn:E; simpl.
    + apply String.eqb_eq in E as <-. by apply String.eqb_neq in Hne as ->.
    + by rewrite IH.
Qed.

Lemma has_field_set_field_eq k v f : has_field k (set_field k v f) = true.
Proof.
  unfold has_field. induction f as [|[k' v'] f IH]; simpl.
  - by rewrite String.eqb_refl.
  - destruct (String.eqb k k') eqn:E; simpl; [by rewrite String.eqb_refl|].
    by rewrite E.
Qed.

Lemma has_field_set_field_ne k k' v f :
  has_field k f = true → has_field k (set_field k' v f) = true.
Proof.
  unfold has_field. induction f as [|[k2 v2] f IH]; simpl; [discriminate|].
  destruct (String.eqb k' k2) eqn:E; simpl.
  - apply String.eqb_eq in E as <-. done.
  - destruct (String.eqb k k2); [done|]. exact IH.
Qed.

Lemma has_field_set_field_other k k' v f :
  k ≠ k' → has_field k (set_field k' v f) = has_field k f.
Proof.
  intros Hne. unfold has_field. induction f as [|[k2 v2] f IH]; simpl.
  - apply String.eqb_neq in Hne as ->. done.
  - destruct (String.eqb k' k2) eqn:E; simpl.
    + apply String.eqb_eq in E as <-. done.
    + by rewrite IH.
Qed.

(** Writing a property that is there with that value changes nothing. *)
Lemma set_field_absorb k v f :
  has_field k f = true → lookup_field k f = v → set_field k v f = f.
Proof.
  unfold has_field. induction f as [|[k' v'] f IH]; simpl; [discriminate|].
  destruct (String.eqb k k') eqn:E; simpl.
  - apply String.eqb_eq in E as <-. by intros _ ->.
  - intros H1 H2. by rewrite IH.
Qed.

(** ** The [session] callback (lines 178-189) *)

Lemma token_has_id_string (token : JsValue) :
  token_has_id token = true →
  ∃ tid, optional_get token "id" = JsString tid ∧ tid ≠ "".
Proof.
  unfold token_has_id. rewrite !andb_true_iff, bool_decide_eq_true.
  intros [[_ Ht] Hs].
  destruct (optional_get token "id") as [| | | | |tid|] eqn:E; try discriminate.
  exists tid. split; [done|]. by apply truthy_string.
Qed.

(** [session], case by case. *)
Lemma session_cases (token s : JsValue) :
  session token s
  = match s with
    | JsUndefined | JsNull => TypeError
    | JsObject sf =>
        if truthy (lookup_field "user" sf) && token_has_id token then
          match lookup_field "user" sf with
          | JsObject uf =>
              Normal (JsObject (set_field "user" (JsObject (session_user token uf)) sf))
          | _ => TypeError
          end
        else Normal s
    | _ => Normal s
    end.
Proof.
  destruct s as [| | | | | |sf]; try reflexivity.
  unfold session. simpl.
  destruct (lookup_field "user" sf) as [| |[]|n| |u|uf] eqn:Hu; simpl; try reflexivity.
  all: try (destruct (token_has_id token); reflexivity).
  - destruct (n =? 0)%Z; simpl; [reflexivity|]. destruct (token_has_id token); reflexivity.
  - destruct (String.eqb u ""); simpl; [reflexivity|].
    destruct (token_has_id token); reflexivity.
Qed.

Lemma session_writes token sf uf :
  lookup_field "user" sf = JsObject uf → token_has_id token = true →
  session token (JsObject sf)
  = Normal (JsObject (set_field "user" (JsObject (session_user token uf)) sf)).
Proof. intros Hu Ht. rewrite session_cases, Hu, Ht. reflexivity. Qed.

Lemma session_skips (token s user : JsValue) :
  get_property s "user" = Normal user →
  truthy user = false ∨ token_has_id token = false →
  session token s = Normal s.
Proof.
  intros Hu H. rewrite session_cases.
  destruct s as [| | | | | |sf]; try reflexivity; try discriminate.
  injection Hu as ->. destruct H as [-> | ->]; [reflexivity|].
  by rewrite andb_false_r.
Qed.

Lemma nullish_or_null_defined (v : JsValue) : nullish_or v JsNull ≠ JsUndefined.
Proof. by destruct v. Qed.

(** [session] hands the session back as it is when the session has no user,
    and when the token carries no identifier that is a non-empty string. *)
Theorem session_unchanged (token s user : JsValue) :
  get_property s "user" = Normal user →
  truthy user = false ∨ token_has_id token = false →
  session token s = Normal s.
Proof. apply session_skips. Qed.

Lemma session_unchanged_witness :
  let s := JsObject [("user", JsObject [("name", JsString "Ann")]);
                     ("expires", JsString "2030-01-01")] in
  let token := JsObject [("id", JsNumber 7); ("name", JsString "Bob")] in
  get_property s "user" = Normal (JsObject [("name", JsString "Ann")])
  ∧ (truthy (JsObject [("name", JsString "Ann")]) = false ∨ token_has_id token = false)
  ∧ session token s = Normal s.
Proof.
  intros s token.
  assert (truthy (JsObject [("name", JsString "Ann")]) = false
          ∨ token_has_id token = false) as H by (right; reflexivity).
  split_and!; [reflexivity | exact H |].
  exact (session_unchanged token s _ eq_refl H).
Defined.

(** With a user object in the session and a token whose [id] is a non-empty
    string, [session] returns the session with the user's [id], [name],
    [email] and [image] taken from the token's [id], [name], [email] and
    [picture]; a missing one becomes [null], so none of the four is left
    [undefined], and [id] is a non-empty string. *)
Theorem session_exposes_token (token : JsValue) (sf uf : list (string * JsValue)) :
  lookup_field "user" sf = JsObject uf → token_has_id token = true →
  ∃ s' u',
    session token (JsObject sf) = Normal s'
    ∧ optional_get s' "user" = JsObject u'
    ∧ lookup_field "id" u' = optional_get token "id"
    ∧ lookup_field "name" u' = nullish_or (optional_get token "name") JsNull
    ∧ lookup_field "email" u' = nullish_or (optional_get token "email") JsNull
    ∧ lookup_field "image" u' = nullish_or (optional_get token "picture") JsNull
    ∧ (∃ tid, lookup_field "id" u' = JsString tid ∧ tid ≠ "")
    ∧ lookup_field "name" u' ≠ JsUndefined
    ∧ lookup_field "email" u' ≠ JsUndefined
    ∧ lookup_field "image" u' ≠ JsUndefined.
Proof.
  intros Hu Ht.
  exists (JsObject (set_field "user" (JsObject (session_user token uf)) sf)),
    (session_user token uf).
  assert (lookup_field "id" (session_user token uf) = optional_get token "id") as Hid.
  { unfold session_user. by rewrite 3!lookup_set_field_ne, lookup_set_field_eq. }
  assert (lookup_field "name" (session_user token uf)
          = nullish_or (optional_get token "name") JsNull) as Hname.
  { unfold session_user. by rewrite 2!lookup_set_field_ne, lookup_set_field_eq. }
  assert (lookup_field "email" (session_user token uf)
          = nullish_or (optional_get token "email") JsNull) as Hemail.
  { unfold session_user. by rewrite lookup_set_field_ne, lookup_set_field_eq. }
  assert (lookup_field "image" (session_user token uf)
          = nullish_or (optional_get token "picture") JsNull) as Himage.
  { unfold session_user. by rewrite lookup_set_field_eq. }
  split_and!; try done.
  - by apply session_writes.
  - simpl. apply lookup_set_field_eq.
  - rewrite Hid. by apply token_has_id_string.
  - rewrite Hname. apply nullish_or_null_defined.
  - rewrite Hemail. apply nullish_or_null_defined.
  - rewrite Himage. apply nullish_or_null_defined.
Qed.

Lemma session_exposes_token_witness :
  let sf := [("user", JsObject [("name", JsString "Ann")]);
             ("expires", JsString "2030-01-01")] in
  let token := JsObject [("id", JsString "usr_1"); ("email", JsString "ann@example.com")] in
  lookup_field "user" sf = JsObject [("name", JsString "Ann")]
  ∧ token_has_id token = true
  ∧ ∃ s' u',
      session token (JsObject sf) = Normal s'
      ∧ optional_get s' "user" = JsObject u'
      ∧ lookup_field "id" u' = JsString "usr_1"
      ∧ lookup_field "name" u' = JsNull
      ∧ lookup_field "email" u' = JsString "ann@example.com"
      ∧ lookup_field "image" u' = JsNull.
Proof.
  intros sf token.
  split; [reflexivity|]. split; [reflexivity|].
  destruct (session_exposes_token token sf [("name", JsString "Ann")] eq_refl eq_refl)
    as (s' & u' & Hs & Hu & Hid & Hname & Hemail & Himage & _).
  exists s', u'. split_and!; assumption.
Defined.

(** [session] touches nothing else: every other property of the user, and
    every other property of the session, is after the call what it was
    before. *)
Theorem session_frame (token : JsValue) (sf uf : list (string * JsValue)) (s' : JsValue) :
  lookup_field "user" sf = JsObject uf →
  session token (JsObject sf) = Normal s' →
  (∀ k, k ≠ "user" → optional_get s' k = lookup_field k sf)
  ∧ ∃ u', optional_get s' "user" = JsObject u'
          ∧ ∀ k, k ≠ "id" → k ≠ "name" → k ≠ "email" → k ≠ "image" →
                 lookup_field k u' = lookup_field k uf.
Proof.
  intros Hu Hs.
  destruct (token_has_id token) eqn:Ht.
  - rewrite (session_writes token sf uf Hu Ht) in Hs. injection Hs as <-. split.
    + intros k Hk. simpl. by apply lookup_set_field_ne.
    + exists (session_user token uf). split; [simpl; apply lookup_set_field_eq|].
      intros k H1 H2 H3 H4. unfold session_user.
      by rewrite 4!lookup_set_field_ne.
  - rewrite (session_skips token (JsObject sf) (JsObject uf)) in Hs.
    + injection Hs as <-. split; [done|]. exists uf. by split.
    + simpl. by rewrite Hu.
    + by right.
Qed.

Lemma session_frame_witness :
  let uf := [("name", JsString "Ann"); ("role", JsString "admin")] in
  let sf := [("user", JsObject uf); ("expires", JsString "2030-01-01")] in
  let token := JsObject [("id", JsString "usr_1"); ("name", JsString "Bob")] in
  ∃ s',
    lookup_field "user" sf = JsObject uf
    ∧ session token (JsObject sf) = Normal s'
    ∧ optional_get s' "expires" = JsString "2030-01-01"
    ∧ ∃ u', optional_get s' "user" = JsObject u'
            ∧ lookup_field "role" u' = JsString "admin".
Proof.
  intros uf sf token.
  exists (JsObject (set_field "user" (JsObject (session_user token uf)) sf)).
  destruct (session_frame token sf uf
              (JsObject (set_field "user" (JsObject (session_user token uf)) sf))
              eq_refl eq_refl) as (Hs & u' & Hu & Hk).
  split_and!; [reflexivity | reflexivity | |].
  - apply (Hs "expires"). discriminate.
  - exists u'. split; [exact Hu|]. apply (Hk "role"); discriminate.
Defined.

Lemma session_user_idem token uf :
  session_user token (session_user token uf) = session_user token uf.
Proof.
  set (u := session_user token uf). unfold session_user at 1.
  rewrite (set_field_absorb "id" _ u).
  2: { subst u. unfold session_user.
       do 3 apply has_field_set_field_ne. apply has_field_set_field_eq. }
  2: { subst u. unfold session_user.
       by rewrite 3!lookup_set_field_ne, lookup_set_field_eq. }
  rewrite (set_field_absorb "name" _ u).
  2: { subst u. unfold session_user.
       do 2 apply has_field_set_field_ne. apply has_field_set_field_eq. }
  2: { subst u. unfold session_user.
       by rewrite 2!lookup_set_field_ne, lookup_set_field_eq. }
  rewrite (set_field_absorb "email" _ u).
  2: { subst u. unfold session_user.
       apply has_field_set_field_ne. apply has_field_set_field_eq. }
  2: { subst u. unfold session_user.
       by rewrite lookup_set_field_ne, lookup_set_field_eq. }
  apply set_field_absorb; subst u; unfold session_user;
    [apply has_field_set_field_eq | apply lookup_set_field_eq].
Qed.

(** Running [session] again on the session it returned, with the same token,
    returns that session again. *)
Theorem session_idempotent (token s s' : JsValue) :
  session token s = Normal s' → session token s' = Normal s'.
Proof.
  rewrite (session_cases token s).
  destruct s as [| | | | | |sf]; try discriminate; try (by intros [= <-]).
  destruct (truthy (lookup_field "user" sf) && token_has_id token) eqn:E.
  - apply andb_true_iff in E as [_ Ht].
    destruct (lookup_field "user" sf) as [| | | | | |uf] eqn:Hu; try discriminate.
    intros [= <-].
    rewrite (session_writes token _ (session_user token uf));
      [|apply lookup_set_field_eq | done].
    rewrite session_user_idem. do 2 f_equal.
    apply set_field_absorb; [apply has_field_set_field_eq | apply lookup_set_field_eq].
  - intros [= <-]. rewrite session_cases. by rewrite E.
Qed.

Lemma session_idempotent_witness :
  let s := JsObject [("user", JsObject [("name", JsString "Ann")])] in
  let token := JsObject [("id", JsString "usr_1"); ("picture", JsString "p.png")] in
  let s' := JsObject [("user", JsObject [("name", JsNull); ("id", JsString "usr_1");
                                         ("email", JsNull); ("image", JsString "p.png")])] in
  session token s = Normal s' ∧ session token s' = Normal s'.
Proof.
  intros s token s'. split; [reflexivity|].
  exact (session_idempotent token s s' eq_refl).
Defined.

(** [session] throws in two cases only: when the session itself is [null]
    or [undefined], and when the token carries a string identifier while
    [session.user] is a truthy value that is not an object. *)
Theorem session_throws (token s : JsValue) :
  session token s = TypeError
  ↔ s = JsUndefined ∨ s = JsNull
    ∨ ∃ sf, s = JsObject sf
            ∧ truthy (lookup_field "user" sf) = true
            ∧ is_object (lookup_field "user" sf) = false
            ∧ token_has_id token = true.
Proof.
  rewrite session_cases. split.
  - destruct s as [| | | | | |sf]; try discriminate; auto.
    destruct (truthy (lookup_field "user" sf)) eqn:Hu;
      destruct (token_has_id token) eqn:Ht; simpl; try discriminate.
    destruct (lookup_field "user" sf) eqn:E; try discriminate.
    all: intros _; right; right; exists sf; rewrite E; by rewrite Hu.
  - intros [-> | [-> | (sf & -> & Hu & Ho & Ht)]]; try reflexivity.
    rewrite Hu, Ht. simpl. by destruct (lookup_field "user" sf).
Qed.

(** ** The WorkOS [profile] (lines 65-74) *)

Lemma String_split_head (sep : ascii) (s : string) :
  ∃ h t, String_split sep s = h :: t
         ∧ free_of sep h
         ∧ (s = h ∧ t = [] ∨ ∃ r, s = h ++ String sep r).
Proof.
  induction s as [|c s (h & t & E & Hfree & Hs)]; simpl.
  - exists "", []. split_and!; [done | done | by left].
  - destruct (Ascii.eqb_spec c sep) as [-> | Hc].
    + exists "", (String_split sep s). split_and!; [done | done |].
      right. by exists s.
    + rewrite E. exists (String c h), t. split_and!; [done | done |].
      destruct Hs as [[-> ->] | (r & ->)]; [by left|].
      right. by exists r.
Qed.

Lemma append_empty_r (s : string) : s = s ++ "".
Proof.
  induction s as [|c s IH]; [reflexivity|].
  change (String c s = String c (s ++ "")). by f_equal.
Qed.

Lemma append_nonempty (a b : string) : a ≠ "" → a ++ b ≠ "".
Proof. by destruct a. Qed.

(** The profile always gets a usable name when it has a usable [id]: if
    [profile.id] is truthy, so is the [name] of the user returned. *)
Theorem profile_name_truthy (p : WorkOS.Profile) :
  truthy (WorkOS.id p) = true →
  truthy (optional_get (profile p) "name") = true.
Proof.
  intros Hid. change (optional_get (profile p) "name") with (profile_name p).
  unfold profile_name.
  destruct (truthy (field_value (WorkOS.first_name p))) eqn:Hf.
  - destruct (WorkOS.first_name p) as [| |f]; try discriminate.
    apply truthy_string, append_nonempty. by apply truthy_string.
  - unfold js_or.
    destruct (truthy (email_local_part (WorkOS.email p))) eqn:He; [exact He | exact Hid].
Qed.

Lemma profile_name_truthy_witness :
  let p := {| WorkOS.id := JsString "prof_1";
              WorkOS.first_name := IsNull;
              WorkOS.last_name := Text "Lovelace";
              WorkOS.email := Text "@example.com";
              WorkOS.profile_picture_url := JsUndefined |} in
  truthy (WorkOS.id p) = true
  ∧ optional_get (profile p) "name" = JsString "prof_1"
  ∧ truthy (optional_get (profile p) "name") = true.
Proof.
  intros p. split_and!; [reflexivity | reflexivity |].
  exact (profile_name_truthy p eq_refl).
Defined.

(** Without a first name, the name is taken from the e-mail: it is the part
    of the address before its first ["@"] (the whole address when it has
    none) and so holds no ["@"]; when that part is empty, the name is
    [profile.id]. The last name plays no part. *)
Theorem profile_name_from_email (p : WorkOS.Profile) (e : string) :
  truthy (field_value (WorkOS.first_name p)) = false →
  WorkOS.email p = Text e →
  ∃ local rest,
    e = local ++ rest
    ∧ free_of "@" local
    ∧ (rest = "" ∨ ∃ r, rest = String "@" r)
    ∧ optional_get (profile p) "name"
      = if String.eqb local "" then WorkOS.id p else JsString local.
Proof.
  intros Hf He. change (optional_get (profile p) "name") with (profile_name p).
  unfold profile_name. rewrite Hf, He. simpl.
  destruct (String_split_head "@" e) as (h & t & E & Hfree & Hs).
  rewrite E. simpl. unfold js_or. simpl.
  destruct Hs as [[-> ->] | (r & ->)].
  - exists h, "". split_and!; [|done|by left|by destruct (String.eqb h "")].
    apply append_empty_r.
  - exists h, (String "@" r).
    split_and!; [done | done | right; by exists r | by destruct (String.eqb h "")].
Qed.

Lemma profile_name_from_email_witness :
  let p := {| WorkOS.id := JsString "prof_1";
              WorkOS.first_name := Text "";
              WorkOS.last_name := Text "Lovelace";
              WorkOS.email := Text "ada@math.example@relay";
              WorkOS.profile_picture_url := JsUndefined |} in
  truthy (field_value (WorkOS.first_name p)) = false
  ∧ WorkOS.email p = Text "ada@math.example@relay"
  ∧ optional_get (profile p) "name" = JsString "ada"
  ∧ ∃ local rest,
      "ada@math.example@relay" = local ++ rest
      ∧ free_of "@" local
      ∧ (rest = "" ∨ ∃ r, rest = String "@" r)
      ∧ optional_get (profile p) "name"
        = if String.eqb local "" then WorkOS.id p else JsString local.
Proof.
  intros p. split_and!; [reflexivity | reflexivity | reflexivity |].
  exact (profile_name_from_email p "ada@math.example@relay" eq_refl eq_refl).
Defined.

(** ** The [jwt] callback (lines 191-212) *)

Section FirstRow.
Context {A : Type} (P : A → Prop) `{!∀ x, Decision (P x)}.

Lemma first_row_Some (l : list A) (x : A) :
  head (take 1 (filter P l)) = Some x → x ∈ l ∧ P x.
Proof.
  destruct (filter P l) as [|y l'] eqn:E; simpl; [discriminate|].
  intros [= <-].
  assert (y ∈ filter P l) as Hin by (rewrite E; left).
  apply list_elem_of_filter in Hin as [HP Hl]. done.
Qed.

Lemma first_row_None (l : list A) :
  head (take 1 (filter P l)) = None → ∀ x, x ∈ l → ¬ P x.
Proof.
  destruct (filter P l) as [|y l'] eqn:E; simpl; [|discriminate].
  intros _ x Hx HP.
  assert (x ∈ filter P l) as Hin by (apply list_elem_of_filter; done).
  rewrite E in Hin. by apply elem_of_nil in Hin.
Qed.

End FirstRow.

Lemma jwt_defined columns (token user : JsValue) (e : string) :
  jwt_email token = Some e →
  jwt columns token user
  = Some (await rows <- select_user_rows_by_email e ;;
          match head rows with
          | None =>
              if truthy user
              then ret (set_property token "id" (optional_get user "id"))
              else ret (Normal token)
          | Some dbUser => ret (Normal (token_of_row columns dbUser))
          end).
Proof.
  unfold jwt_email, jwt.
  destruct (get_property token "email") as [v|]; [|discriminate].
  destruct (js_or v (JsString "")); try discriminate. by intros [= ->].
Qed.

Lemma jwt_nullish columns (token user : JsValue) :
  get_property token "email" = TypeError →
  jwt columns token user = Some (ret TypeError).
Proof. unfold jwt. by intros ->. Qed.

(** [jwt] only reads: whatever the token and the user, it leaves the
    database as it is and sends at most one statement, a [Select] on [users]
    by [token.email], or by the empty string when the token has no e-mail.
    On a [null] or [undefined] token it throws before sending anything. *)
Theorem jwt_reads_once columns (token user : JsValue)
    (run : Async (Completion JsValue)) (d : Database) :
  jwt columns token user = Some run →
  db_after (run d) = d
  ∧ (effects (run d) = [] ∧ returned (run d) = TypeError
       ∧ (token = JsUndefined ∨ token = JsNull)
     ∨ ∃ e, jwt_email token = Some e
            ∧ effects (run d) = [DbQuery Select Users e]).
Proof.
  intros Hrun.
  destruct (get_property token "email") as [v|] eqn:Hget.
  - destruct (jwt_email token) as [e|] eqn:He.
    + rewrite (jwt_defined columns token user e He) in Hrun. injection Hrun as <-.
      unfold bind, select_user_rows_by_email. cbn [returned db_after effects].
      destruct (head _) as [u|]; [|destruct (truthy user)];
        cbn [ret returned db_after effects]; (split; [done|right; by exists e]).
    + unfold jwt_email in He. unfold jwt in Hrun. rewrite Hget in *.
      destruct (js_or v (JsString "")); discriminate.
  - rewrite (jwt_nullish columns token user Hget) in Hrun. injection Hrun as <-.
    split; [done|]. left. split_and!; [done..|].
    destruct token; try discriminate; auto.
Qed.

Lemma jwt_reads_once_witness :
  let token := JsObject [("email", JsString "member@example.com")] in
  ∃ run,
    jwt plainColumns token JsUndefined = Some run
    ∧ db_after (run memberDb) = memberDb
    ∧ effects (run memberDb) = [DbQuery Select Users "member@example.com"].
Proof.
  intros token. eexists. split; [reflexivity|].
  destruct (jwt_reads_once plainColumns token JsUndefined _ memberDb eq_refl)
    as [Hdb [(He & _) | (e & He & Heff)]].
  - discriminate He.
  - split; [exact Hdb|]. injection He as <-. exact Heff.
Defined.

(** When [users] has a row for the token's e-mail, [jwt] returns a token
    made from the first such row, which is the row when e-mails are unique:
    its [id] and [email] are the row's, the e-mail being the token's. The
    token returned has the properties [id], [name], [lastName], [email] and
    [picture] and no other: nothing else the incoming token carried is kept,
    and the [user] argument is not looked at. *)
Theorem jwt_known_user columns (token user : JsValue) (e : string)
    (u : users.row) (d : Database) :
  jwt_email token = Some e →
  u ∈ tbl_users d → users.email u = e →
  ∃ run dbUser,
    jwt columns token user = Some run
    ∧ returned (run d) = Normal (token_of_row columns dbUser)
    ∧ dbUser ∈ tbl_users d
    ∧ (unique_emails d → dbUser = u)
    ∧ optional_get (token_of_row columns dbUser) "id" = JsString (users.id dbUser)
    ∧ optional_get (token_of_row columns dbUser) "email" = JsString e
    ∧ ∀ k, k ≠ "id" → k ≠ "name" → k ≠ "lastName" → k ≠ "email" → k ≠ "picture" →
           optional_get (token_of_row columns dbUser) k = JsUndefined.
Proof.
  intros He Hu Hue.
  destruct (head (take 1 (filter (λ u, users.email u = e) (tbl_users d))))
    as [dbUser|] eqn:Hrows.
  - pose proof (first_row_Some _ _ _ Hrows) as [Hin Hemail].
    eexists _, dbUser. split; [by apply jwt_defined|].
    unfold bind, select_user_rows_by_email. cbn [returned db_after effects].
    rewrite Hrows. split_and!; [done | done | | done | by rewrite <- Hemail |].
    + intros Huniq. apply (unique_emails_inj d); congruence.
    + intros k H1 H2 H3 H4 H5. simpl.
      apply String.eqb_neq in H1, H2, H3, H4, H5. by rewrite H1, H2, H3, H4, H5.
  - exfalso. by apply (first_row_None _ _ Hrows u).
Qed.

Lemma jwt_known_user_witness :
  let token := JsObject [("email", JsString "member@example.com");
                         ("sub", JsString "subject")] in
  let u := {| users.id := "usr_1"; users.email := "member@example.com" |} in
  jwt_email token = Some "member@example.com"
  ∧ u ∈ tbl_users memberDb
  ∧ ∃ run dbUser,
      jwt plainColumns token JsUndefined = Some run
      ∧ returned (run memberDb) = Normal (token_of_row plainColumns dbUser)
      ∧ optional_get (token_of_row plainColumns dbUser) "sub" = JsUndefined.
Proof.
  intros token u.
  assert (u ∈ tbl_users memberDb) as Hu by left.
  split; [reflexivity|]. split; [exact Hu|].
  destruct (jwt_known_user plainColumns token JsUndefined "member@example.com" u memberDb
              eq_refl Hu eq_refl)
    as (run & dbUser & Hrun & Hret & _ & _ & _ & _ & Hk).
  exists run, dbUser. split_and!; [exact Hrun | exact Hret |].
  apply Hk; discriminate.
Defined.

(** When [users] has no row for the token's e-mail, [jwt] returns the token
    it was given: as it is when there is no [user]; with [id] set to
    [user.id] and every other property untouched when there is one. *)
Theorem jwt_unknown_user columns (tf : list (string * JsValue)) (user : JsValue)
    (e : string) (d : Database) :
  jwt_email (JsObject tf) = Some e →
  (∀ u, u ∈ tbl_users d → users.email u ≠ e) →
  ∃ run tf',
    jwt columns (JsObject tf) user = Some run
    ∧ returned (run d) = Normal (JsObject tf')
    ∧ (truthy user = false → tf' = tf)
    ∧ (truthy user = true → lookup_field "id" tf' = optional_get user "id")
    ∧ ∀ k, k ≠ "id" → lookup_field k tf' = lookup_field k tf.
Proof.
  intros He Hnone.
  assert (head (take 1 (filter (λ u, users.email u = e) (tbl_users d))) = None) as Hrows.
  { destruct (head _) as [x|] eqn:Hx; [|done].
    apply first_row_Some in Hx as [Hin Hemail]. by apply Hnone in Hin. }
  eexists _, (if truthy user then set_field "id" (optional_get user "id") tf else tf).
  split; [by apply jwt_defined|].
  unfold bind, select_user_rows_by_email. cbn [returned db_after effects].
  rewrite Hrows. destruct (truthy user); cbn [ret returned set_property].
  - split_and!; [done | done | intros _; apply lookup_set_field_eq |].
    intros k Hk. by apply lookup_set_field_ne.
  - split_and!; done.
Qed.

Lemma jwt_unknown_user_witness :
  let tf := [("email", JsString "new@example.com"); ("sub", JsString "subject")] in
  let user := JsObject [("id", JsString "usr_9")] in
  jwt_email (JsObject tf) = Some "new@example.com"
  ∧ (∀ u, u ∈ tbl_users memberDb → users.email u ≠ "new@example.com")
  ∧ ∃ run tf',
      jwt plainColumns (JsObject tf) user = Some run
      ∧ returned (run memberDb) = Normal (JsObject tf')
      ∧ lookup_field "id" tf' = JsString "usr_9"
      ∧ lookup_field "sub" tf' = JsString "subject".
Proof.
  intros tf user.
  assert (∀ u, u ∈ tbl_users memberDb → users.email u ≠ "new@example.com") as Hnone.
  { intros u Hu. simpl in Hu. apply list_elem_of_singleton in Hu as ->. discriminate. }
  split; [reflexivity|]. split; [exact Hnone|].
  destruct (jwt_unknown_user plainColumns tf user "new@example.com" memberDb eq_refl Hnone)
    as (run & tf' & Hrun & Hret & _ & Hid & Hk).
  exists run, tf'. split_and!; [exact Hrun | exact Hret | by apply Hid |].
  apply (Hk "sub"). discriminate.
Defined.

(** [jwt] and [session] together: when [users] has a row for the token's
    e-mail, with a non-empty identifier, and the session has a user object,
    the session ends up with that row's [id] and [email], and with its
    [name] and [image], [null] in place of a missing one. The row's
    [lastName] goes into the token but not into the session. *)
Theorem session_after_jwt columns (token user : JsValue) (e : string) (u : users.row)
    (d : Database) (sf uf : list (string * JsValue)) :
  jwt_email token = Some e →
  unique_emails d → u ∈ tbl_users d → users.email u = e → users.id u ≠ "" →
  lookup_field "user" sf = JsObject uf →
  ∃ run t s' u',
    jwt columns token user = Some run
    ∧ returned (run d) = Normal t
    ∧ session t (JsObject sf) = Normal s'
    ∧ optional_get s' "user" = JsObject u'
    ∧ lookup_field "id" u' = JsString (users.id u)
    ∧ lookup_field "email" u' = JsString e
    ∧ lookup_field "name" u' = nullish_or (dbUser.name (columns u)) JsNull
    ∧ lookup_field "image" u' = nullish_or (dbUser.image (columns u)) JsNull
    ∧ (has_field "lastName" uf = false → has_field "lastName" u' = false).
Proof.
  intros He Huniq Hu Hue Hid Huser.
  destruct (head (take 1 (filter (λ u, users.email u = e) (tbl_users d))))
    as [dbUser|] eqn:Hrows; [|exfalso; by apply (first_row_None _ _ Hrows u)].
  pose proof (first_row_Some _ _ _ Hrows) as [Hin Hemail].
  assert (dbUser = u) as -> by (apply (unique_emails_inj d); congruence).
  assert (token_has_id (token_of_row columns u) = true) as Ht.
  { unfold token_has_id. simpl. apply String.eqb_neq in Hid. by rewrite Hid. }
  eexists _, (token_of_row columns u), _, (session_user (token_of_row columns u) uf).
  split; [by apply jwt_defined|].
  split.
  { unfold bind, select_user_rows_by_email. cbn [returned db_after effects].
    by rewrite Hrows. }
  split; [by apply session_writes|].
  split; [simpl; apply lookup_set_field_eq|].
  unfold session_user. split_and!.
  - by rewrite 3!lookup_set_field_ne, lookup_set_field_eq.
  - rewrite lookup_set_field_ne, lookup_set_field_eq by done. simpl. by rewrite Hue.
  - by rewrite 2!lookup_set_field_ne, lookup_set_field_eq.
  - by rewrite lookup_set_field_eq.
  - intros Hl. rewrite !has_field_set_field_other by done. exact Hl.
Qed.

Lemma session_after_jwt_witness :
  let token := JsObject [("email", JsString "member@example.com")] in
  let u := {| users.id := "usr_1"; users.email := "member@example.com" |} in
  let sf := [("user", JsObject [("name", JsString "old")]);
             ("expires", JsString "2030-01-01")] in
  jwt_email token = Some "member@example.com"
  ∧ unique_emails memberDb ∧ u ∈ tbl_users memberDb ∧ users.id u ≠ ""
  ∧ ∃ run t s' u',
      jwt plainColumns token JsUndefined = Some run
      ∧ returned (run memberDb) = Normal t
      ∧ session t (JsObject sf) = Normal s'
      ∧ optional_get s' "user" = JsObject u'
      ∧ lookup_field "id" u' = JsString "usr_1"
      ∧ lookup_field "email" u' = JsString "member@example.com"
      ∧ lookup_field "name" u' = JsString "Ada"
      ∧ lookup_field "image" u' = JsNull.
Proof.
  intros token u sf.
  assert (unique_emails memberDb) as Huniq by (apply NoDup_singleton).
  assert (u ∈ tbl_users memberDb) as Hu by left.
  assert (users.id u ≠ "") as Hid by discriminate.
  split_and!; [reflexivity | exact Huniq | exact Hu | exact Hid |].
  destruct (session_after_jwt plainColumns token JsUndefined "member@example.com" u
              memberDb sf [("name", JsString "old")] eq_refl Huniq Hu eq_refl Hid eq_refl)
    as (run & t & s' & u' & Hrun & Hret & Hs & Hget & H1 & H2 & H3 & H4 & _).
  exists run, t, s', u'. split_and!; assumption.
Defined.

(** ** The cached getters (lines 27-35 and 46-115) *)

Lemma read_ok (r : Read) (c : Closure) :
  closure_ok c →
  closure_ok (read r c).2
  ∧ cache_of r (read r c).2 = Some (read r c).1
  ∧ (∀ r' v, cache_of r' c = Some v → cache_of r' (read r c).2 = Some v).
Proof.
  intros (Hn & Hd & Hlt). unfold closure_ok, read, get_adapter, get_providers.
  destruct r, (_adapter c) as [a|] eqn:Ha, (_providers c) as [p|] eqn:Hp;
    cbn [fst snd cache_of _adapter _providers constructed filled] in *;
    rewrite ?Ha, ?Hp;
    cbn [fst snd cache_of _adapter _providers constructed filled] in *.
  all: split_and!; try done; try lia.
  all: try (intros x y [= <-] [= <-]; try (by apply Hd);
            try (pose proof (Hlt ReadAdapter _ Ha)); try (pose proof (Hlt ReadProviders _ Hp));
            simpl in *; lia).
  all: try (intros [] v; simpl; rewrite ?Ha, ?Hp; intros [= <-];
            try (pose proof (Hlt ReadAdapter _ Ha)); try (pose proof (Hlt ReadProviders _ Hp));
            simpl in *; lia).
  all: try (intros [] v; simpl; rewrite ?Ha, ?Hp; congruence).
Qed.

Lemma reads_ok (rs : list Read) (c : Closure) :
  closure_ok c →
  closure_ok (reads rs c).2
  ∧ (∀ r v, (r, v) ∈ (reads rs c).1 → cache_of r (reads rs c).2 = Some v)
  ∧ (∀ r v, cache_of r c = Some v → cache_of r (reads rs c).2 = Some v).
Proof.
  revert c. induction rs as [|r rs IH]; intros c Hc; simpl.
  - split_and!; try done. intros r v Hv. by apply elem_of_nil in Hv.
  - destruct (read r c) as [v c1] eqn:Hr.
    destruct (read_ok r c Hc) as (Hc1 & Hv & Hkeep). rewrite Hr in *. simpl in *.
    destruct (reads rs c1) as [vs c2] eqn:Hrs.
    destruct (IH c1 Hc1) as (Hc2 & Hvs & Hkeep2). rewrite Hrs in *. simpl in *.
    split_and!; [done | | auto].
    intros r' x Hx. apply elem_of_cons in Hx as [[= -> ->] | Hx]; auto.
Qed.

(** A read that took place yielded something. *)
Lemma reads_read_cached (rs : list Read) (c : Closure) (r : Read) :
  r ∈ rs → ∃ v, (r, v) ∈ (reads rs c).1.
Proof.
  revert c. induction rs as [|r' rs IH]; intros c Hin; [by apply elem_of_nil in Hin|].
  simpl. destruct (read r' c) as [v c1]. specialize (IH c1).
  destruct (reads rs c1) as [vs c2]. simpl in *.
  apply elem_of_cons in Hin as [-> | Hin].
  - exists v. left.
  - destruct (IH Hin) as [x Hx]. exists x. by right.
Qed.

(** A cache filled in the end was filled before or by a read. *)
Lemma reads_cached_read (rs : list Read) (c : Closure) (r : Read) :
  cache_of r (reads rs c).2 ≠ None → cache_of r c ≠ None ∨ r ∈ rs.
Proof.
  revert c. induction rs as [|r' rs IH]; intros c H; [by left|].
  simpl in H. destruct (read r' c) as [v c1] eqn:Hr. specialize (IH c1).
  destruct (reads rs c1) as [vs c2]. simpl in *.
  destruct (IH H) as [H1 | H1]; [|right; by right].
  destruct (decide (r = r')) as [-> | Hne]; [right; left|]. left.
  revert Hr H1. unfold read, get_adapter, get_providers, cache_of.
  destruct r, r'; try (by destruct Hne);
    destruct (_adapter c) eqn:Ha, (_providers c) eqn:Hp; simpl;
    intros [= <- <-]; simpl; congruence.
Qed.

(** However often and in whatever order [adapter] and [providers] of one
    options object are read, each of them is constructed at most once: all
    reads of the same one yield the same object, the adapter and the
    providers are different objects, and the constructions number one for
    each of the two that was read at all. *)
Theorem getters_construct_once (rs : list Read) :
  let yielded := (reads rs authOptions).1 in
  let c := (reads rs authOptions).2 in
  (∀ r v v', (r, v) ∈ yielded → (r, v') ∈ yielded → v = v')
  ∧ (∀ a p, (ReadAdapter, a) ∈ yielded → (ReadProviders, p) ∈ yielded → a ≠ p)
  ∧ constructed c
    = ((if bool_decide (ReadAdapter ∈ rs) then 1 else 0)
       + (if bool_decide (ReadProviders ∈ rs) then 1 else 0))%nat.
Proof.
  intros yielded c.
  assert (closure_ok authOptions) as H0.
  { split_and!; [reflexivity | discriminate | by intros []]. }
  destruct (reads_ok rs authOptions H0) as ((Hn & Hd & _) & Hy & _).
  fold yielded c in Hn, Hd, Hy.
  assert (∀ r, filled (cache_of r c) = if bool_decide (r ∈ rs) then 1 else 0)%nat as Hf.
  { intros r. destruct (cache_of r c) as [v|] eqn:E; simpl.
    - rewrite bool_decide_eq_true_2; [done|].
      destruct (reads_cached_read rs authOptions r) as [H|H]; [|by destruct r|done].
      fold c. by rewrite E.
    - rewrite bool_decide_eq_false_2; [done|]. intros Hin.
      apply (reads_read_cached rs authOptions) in Hin as [v Hv].
      fold yielded in Hv. apply Hy in Hv. congruence. }
  split_and!.
  - intros r v v' H1 H2. apply Hy in H1, H2. congruence.
  - intros a p H1 H2. apply Hd; [exact (Hy _ _ H1) | exact (Hy _ _ H2)].
  - rewrite Hn. by rewrite <- (Hf ReadAdapter), <- (Hf ReadProviders).
Qed.

(** ** [sendVerificationRequest] (lines 80-110) *)

(** With or without [RESEND_API_KEY], the token and the identifier are
    written to the console. A message is sent only when the key is set, and
    then exactly one: to the identifier, under the one subject, made of the
    template filled with the token as its code and the identifier as its
    address. *)
Theorem verification_request (Element : Type) (OTPEmail : string → string → Element)
    (RESEND_API_KEY : JsValue) (identifier token : string) :
  let out := sendVerificationRequest Element OTPEmail RESEND_API_KEY identifier token in
  existsb (shows Element token) out = true
  ∧ existsb (shows Element identifier) out = true
  ∧ sent_mail Element out
    = if truthy RESEND_API_KEY
      then [(identifier, "Your Cap Verification Code", OTPEmail token identifier)]
      else [].
Proof.
  unfold sendVerificationRequest.
  destruct (truthy RESEND_API_KEY); cbn [negb existsb shows sent_mail].
  - rewrite !String.eqb_refl. by rewrite !orb_true_r.
  - rewrite !includes_append. by rewrite !orb_true_r.
Qed.

(** ** [profile] and [signIn] together *)

(** A WorkOS profile with a non-empty e-mail signs in under that e-mail: on
    the user that [profile] returns, [signIn] decides on the normalized
    e-mail of the profile, whatever the [email] argument and the credentials
    are. *)
Theorem signIn_after_profile (p : WorkOS.Profile) (e : string)
    (email credentials : JsValue) (d : Database) :
  WorkOS.email p = Text e → e ≠ "" →
  resolveUserEmail (profile p) email credentials = JsString e
  ∧ signIn (profile p) email credentials d = invite_only_gate (normalize e) d.
Proof.
  intros He Hne.
  assert (resolveUserEmail (profile p) email credentials = JsString e) as Hr.
  { unfold resolveUserEmail, js_or.
    change (optional_get (profile p) "email") with (field_value (WorkOS.email p)).
    rewrite He. simpl. apply String.eqb_neq in Hne. by rewrite Hne. }
  split; [exact Hr|].
  unfold signIn. rewrite Hr. by apply authorize_string.
Qed.

Lemma signIn_after_profile_witness :
  let p := {| WorkOS.id := JsString "prof_1";
              WorkOS.first_name := Text "Ada";
              WorkOS.last_name := IsNull;
              WorkOS.email := Text "Member@Example.com";
              WorkOS.profile_picture_url := JsUndefined |} in
  WorkOS.email p = Text "Member@Example.com"
  ∧ "Member@Example.com" ≠ ""
  ∧ resolveUserEmail (profile p) (JsString "other@example.com") JsUndefined
    = JsString "Member@Example.com"
  ∧ signIn (profile p) (JsString "other@example.com") JsUndefined memberDb
    = invite_only_gate "member@example.com" memberDb.
Proof.
  intros p. split; [reflexivity|]. split; [discriminate|].
  exact (signIn_after_profile p "Member@Example.com" (JsString "other@example.com")
           JsUndefined memberDb eq_refl ltac:(discriminate)).
Defined.
